(** * Sentence annotation pipeline: vocabulary tagging, pattern matching,
      context windows, interval merging, classification and highlighting.

    Shallow embedding of the annotation script ([analyze] and its helpers
    [looks_like_table], [highlight], [classify], the tables [VOCAB] and the
    token-pattern [matcher]), of the ranked sentence extractor and of the
    mention and association extractors.

    Conventions of the embedding.
    - A Python [str] is a list of Unicode code points ([list char]).
    - What Python knows about characters, that is [str.lower], the white
      space removed by [str.strip], the regular-expression classes [\d]
      and [\w] (and with it [\b]) and the matching of a pattern character
      under [re.I], is the interpreter's character database. It is the
      parameter [Unicode] of the development; nothing is fixed about it
      in the definitions. Its behaviour on ASCII text is stated in
      [unicode_laws] and assumed where a property needs it; [ascii_db] is
      the database that knows the ASCII characters only.
    - Python integers are [Z].
    - A Python [set] of tag names is a [gset string].
    - The statistical sentence segmenter and tokenizer of the NLP library
      are not part of the script: segmentation is a parameter [nlp_sents]
      yielding spans, each span carrying its text and its tokens, each token
      carrying the lexical attribute [LIKE_NUM] computed by the library.
    - The iteration order of the Python set [ALL_KEYWORDS] is unspecified;
      it is the parameter [kw_iter].
    - Progress bars and printing have no effect on the returned value and
      are left out. *)

From Stdlib Require Import ZArith NArith Ascii String List Lia Bool Permutation.
From stdpp Require Import gmap strings list sorting.

Local Open Scope string_scope.
Local Open Scope list_scope.
Local Open Scope Z_scope.

(** ** Characters and strings *)

(** A character is a Unicode code point. *)
Abbreviation char := N (only parsing).

(** A string literal of the scripts' tables, all of them ASCII, as the
    code points of its characters. *)
Definition str (s : string) : list char :=
  N_of_ascii <$> list_ascii_of_string s.

(** *** The ASCII range *)

Definition is_ascii (c : char) : bool := (c <? 128)%N.

Definition ascii_digit (c : char) : bool := ((48 <=? c) && (c <=? 57))%N.

Definition ascii_upper (c : char) : bool := ((65 <=? c) && (c <=? 90))%N.

Definition ascii_small (c : char) : bool := ((97 <=? c) && (c <=? 122))%N.

(** Letters, digits and the underscore. *)
Definition ascii_word (c : char) : bool :=
  ascii_digit c || ascii_upper c || ascii_small c || (c =? 95)%N.

(** Tab, line feed, vertical tab, form feed, carriage return, the four
    separators 28..31 and the space. *)
Definition ascii_space (c : char) : bool :=
  (((9 <=? c) && (c <=? 13)) || ((28 <=? c) && (c <=? 31)) || (c =? 32))%N.

Definition ascii_lower_char (c : char) : char :=
  if ascii_upper c then (c + 32)%N else c.

Definition ascii_lower (t : list char) : list char := ascii_lower_char <$> t.

(** A text of ASCII characters only. *)
Definition ascii_text (t : list char) : bool := forallb is_ascii t.

(** *** The character database *)

(** The operations of Python on characters that the scripts use.
    - [lower t] is [t.lower()]; it acts on the whole text, as the lower
      case of a character may depend on its neighbours and may be longer
      than one character;
    - [is_space c]: [c] is white space, as [str.strip] removes it;
    - [is_digit c]: the class [\d] of [re] holds [c];
    - [is_word c]: the class [\w] of [re] holds [c];
    - [ci_match p c]: the pattern character [p] matches the character [c]
      of the text under the flag [re.I]. *)
Class Unicode := {
  lower : list char → list char;
  is_space : char → bool;
  is_digit : char → bool;
  is_word : char → bool;
  ci_match : char → char → bool
}.

(** What the database does on ASCII characters: the ASCII letters change
    case among themselves, the classes hold the ASCII characters listed
    above, an ASCII pattern character matches an ASCII character under
    [re.I] when they are equal up to ASCII case; and whatever character an
    ASCII pattern character matches under [re.I] (a few characters outside
    the range match "i", "k" and "s"), it is a word character exactly when
    the pattern character is one. *)
Record unicode_laws (U : Unicode) : Prop := {
  lower_ascii : ∀ t, ascii_text t = true → lower t = ascii_lower t;
  is_space_ascii : ∀ c, is_ascii c = true → is_space c = ascii_space c;
  is_digit_ascii : ∀ c, is_ascii c = true → is_digit c = ascii_digit c;
  is_word_ascii : ∀ c, is_ascii c = true → is_word c = ascii_word c;
  ci_match_ascii : ∀ p c,
    is_ascii p = true → is_ascii c = true →
    ci_match p c = bool_decide (ascii_lower_char p = ascii_lower_char c);
  ci_match_word : ∀ p c,
    is_ascii p = true → ci_match p c = true → is_word c = is_word p
}.

(** The database that knows the ASCII characters only. *)
Definition ascii_db : Unicode := {|
  lower := ascii_lower;
  is_space := ascii_space;
  is_digit := ascii_digit;
  is_word := ascii_word;
  ci_match p c := bool_decide (ascii_lower_char p = ascii_lower_char c)
|}.

Section Model.

Context `{U : Unicode}.

(** [t.lstrip()] *)
Fixpoint lstrip (t : list char) : list char :=
  match t with
  | [] => []
  | c :: t' => if is_space c then lstrip t' else t
  end.

(** [t.strip()] *)
Definition strip (t : list char) : list char :=
  rev (lstrip (rev (lstrip t))).

(** [t.startswith(w)] *)
Fixpoint startswith (w t : list char) : bool :=
  match w, t with
  | [], _ => true
  | _ :: _, [] => false
  | a :: w', b :: t' => bool_decide (a = b) && startswith w' t'
  end.

(** [w in t] for strings: [w] occurs as a contiguous substring of [t]. *)
Fixpoint contains (w t : list char) : bool :=
  startswith w t ||
  match t with
  | [] => false
  | _ :: t' => contains w t'
  end.

(** ** Constants and tables *)

Definition CONTEXT : Z := 2.
Definition HL_S : list char := str "[[".
Definition HL_E : list char := str "]]".

Definition VOCAB : list (string * list string) :=
  [ ("STATIONARY",
      [ "pore size"; "pore diameter"; "porosity"; "mesoporous"; "microporous";
        "macroporous"; "particle size"; "bead size"; "column dimensions";
        "column length"; "inner diameter"; "stationary phase";
        "packing material"; "reverse phase"; "normal phase"; "sec"; "gpc";
        "hilic" ]);
    ("CRITICAL",
      [ "critical"; "acceptable"; "allowable"; "specified"; "recommended";
        "limit"; "limits"; "range"; "maximum"; "minimum"; "upper"; "lower" ]);
    ("SAMPLE",
      [ "measured"; "observed"; "evaluated"; "obtained"; "ranged"; "varied";
        "experimental"; "samples" ]);
    ("SOLVENT",
      [ "water"; "methanol"; "ethanol"; "acetonitrile"; "thf"; "dmf"; "dmso";
        "buffer"; "mobile phase"; "eluent"; "solvent" ]) ].

(** [set().union( *VOCAB.values())] *)
Definition ALL_KEYWORDS : gset string :=
  foldr (fun kv acc => list_to_set (snd kv) ∪ acc) ∅ VOCAB.

(** ** Tokens, spans and the token-pattern matcher *)

Record Token := mkToken { TEXT : list char; LIKE_NUM : bool }.

Definition LOWER (tok : Token) : list char := lower (TEXT tok).

Record Span := mkSpan { span_text : list char; span_tokens : list Token }.

(** One token specification of a pattern: a dictionary with one attribute. *)
Inductive TokenSpec :=
| LikeNum (b : bool)
| LowerIs (w : string)
| LowerIn (ws : list string)
| TextIn (ws : list (list char)).

(** The en dash, U+2013. *)
Definition en_dash : list char := [8211%N].

Definition PATTERNS : list (string * list (list TokenSpec)) :=
  [ ("MEASUREMENT",
      [ [LikeNum true; LowerIn ["nm"; "um"; "mm"; "cm"]] ]);
    ("NUMERIC_RANGE",
      [ [LikeNum true; TextIn [str "-"; en_dash]; LikeNum true];
        [LowerIs "between"; LikeNum true; LowerIs "and"; LikeNum true] ]);
    ("SOLVENT_RATIO",
      [ [LikeNum true; TextIn [str ":"; str "/"]; LikeNum true] ]) ].

Definition spec_ok (sp : TokenSpec) (tok : Token) : bool :=
  match sp with
  | LikeNum b => bool_decide (LIKE_NUM tok = b)
  | LowerIs w => bool_decide (LOWER tok = str w)
  | LowerIn ws => existsb (fun w => bool_decide (LOWER tok = str w)) ws
  | TextIn ws => existsb (fun w => bool_decide (TEXT tok = w)) ws
  end.

(** A pattern without operators matches the tokens starting at the current
    position when each specification accepts the token at its place. *)
Fixpoint pattern_at (pat : list TokenSpec) (toks : list Token) : bool :=
  match pat, toks with
  | [], _ => true
  | _ :: _, [] => false
  | sp :: pat', tok :: toks' => spec_ok sp tok && pattern_at pat' toks'
  end.

(** The matches that start at token position [i]: one triple
    (key, start, end) per rule and pattern that accepts. *)
Definition matches_at (i : nat) (toks : list Token) : list (string * nat * nat) :=
  flat_map
    (fun rule : string * list (list TokenSpec) =>
       flat_map
         (fun pat => if pattern_at pat toks
                     then [(fst rule, i, (i + length pat)%nat)] else [])
         (snd rule))
    PATTERNS.

Fixpoint matcher_from (i : nat) (toks : list Token) : list (string * nat * nat) :=
  match toks with
  | [] => []
  | _ :: toks' => matches_at i toks ++ matcher_from (S i) toks'
  end.

(** [matcher(s)] *)
Definition matcher (s : Span) : list (string * nat * nat) :=
  matcher_from 0 (span_tokens s).

(** ** Table heuristic *)

Definition looks_like_table (t : list char) : bool :=
  existsb is_digit t &&
  (contains (str "  ") t || contains [9%N] t).

(** ** Classifier *)

Definition classify (tags : gset string) : string :=
  if bool_decide (({["CRITICAL"; "NUMERIC_RANGE"]} : gset string) ⊆ tags)
  then "CONFIRMED CRITICAL RANGES"
  else if bool_decide (({["SAMPLE"; "NUMERIC_RANGE"]} : gset string) ⊆ tags)
  then "USED / SAMPLE RANGES"
  else if bool_decide ("SOLVENT" ∈ tags) then "SOLVENT COMPOSITION"
  else if bool_decide ("TABLE" ∈ tags) then "TABLE / NUMERIC DATA"
  else "OTHER RELEVANT INFORMATION".

(** ** Per-sentence scoring (the body of the first loop of [analyze]) *)

(** [any(w in tl for w in words)] *)
Definition any_in (tl : list char) (words : list string) : bool :=
  existsb (fun w => contains (str w) tl) words.

(** One iteration of [for name, words in VOCAB.items()]. *)
Definition vocab_step (tl : list char) (st : Z * gset string)
    (entry : string * list string) : Z * gset string :=
  if any_in tl (snd entry)
  then (fst st + (if bool_decide (fst entry ≠ "SOLVENT") then 3 else 2),
        snd st ∪ {[fst entry]})
  else st.

(** One iteration of [for mid,_,_ in matcher(s)]. *)
Definition match_step (st : Z * gset string) (m : string * nat * nat)
    : Z * gset string :=
  (fst st + 4, snd st ∪ {[fst (fst m)]}).

Definition table_step (t : list char) (st : Z * gset string)
    : Z * gset string :=
  if looks_like_table t then (fst st + 3, snd st ∪ {["TABLE"]}) else st.

Definition score_sentence (s : Span) : Z * gset string :=
  let t := strip (span_text s) in
  let tl := lower (span_text s) in
  table_step t (foldl match_step (foldl (vocab_step tl) (0, ∅) VOCAB) (matcher s)).

(** ** Hits and the merge pass *)

(** A hit is the tuple (window start, window end, score, tags); a merged
    region is a list of the same four fields. *)
Record Hit := mkHit {
  window_start : Z;
  window_end : Z;
  score : Z;
  tags : gset string
}.

(** The loop over [enumerate(sents)] from index [i] on, [n = len(sents)]. *)
Fixpoint hits_from (n i : Z) (sents : list Span) : list Hit :=
  match sents with
  | [] => []
  | s :: rest =>
      let st := score_sentence s in
      (if bool_decide (fst st ≠ 0)
       then [mkHit (Z.max 0 (i - CONTEXT)) (Z.min n (i + CONTEXT + 1)) (fst st) (snd st)]
       else [])
      ++ hits_from n (i + 1) rest
  end.

Definition collect_hits (sents : list Span) : list Hit :=
  hits_from (Z.of_nat (length sents)) 0 sents.

(** [x < y] on the tuples: the first differing component decides; sets are
    compared by proper inclusion. *)
Definition hit_lt (x y : Hit) : bool :=
  if bool_decide (window_start x ≠ window_start y) then window_start x <? window_start y
  else if bool_decide (window_end x ≠ window_end y) then window_end x <? window_end y
  else if bool_decide (score x ≠ score y) then score x <? score y
  else bool_decide (tags x ⊂ tags y).

(** Insertion of [x] behind the elements already placed: before the first
    element that is greater than [x]. *)
Fixpoint insort (x : Hit) (l : list Hit) : list Hit :=
  match l with
  | [] => [x]
  | y :: l' => if hit_lt x y then x :: l else y :: insort x l'
  end.

(** [sorted(hits)]: a stable sort by [<], written as an insertion sort.
    Tag sets that are not comparable leave the order of hits with equal
    window and score to the sort; the merge does not depend on that order
    (lemma [sweep_any_sort]). *)
Definition sorted (hits : list Hit) : list Hit :=
  foldl (fun acc x => insort x acc) [] hits.

(** The body of [for h in sorted(hits)]. *)
Definition merge_step (merged : list Hit) (h : Hit) : list Hit :=
  match last merged with
  | None => merged ++ [h]
  | Some r =>
      if window_end r <? window_start h then merged ++ [h]
      else removelast merged ++
           [mkHit (window_start r)
                  (Z.max (window_end r) (window_end h))
                  (Z.max (score r) (score h))
                  (tags r ∪ tags h)]
  end.

Definition sweep (hs : list Hit) : list Hit := foldl merge_step [] hs.

Definition merge (hits : list Hit) : list Hit := sweep (sorted hits).

(** ** Highlighter *)

Definition is_word_opt (c : option char) : bool :=
  match c with Some c => is_word c | None => false end.

(** [\b] between the character before ([None] at the start of the text)
    and the character after ([None] at the end). *)
Definition boundary (before after : option char) : bool :=
  xorb (is_word_opt before) (is_word_opt after).

(** The characters of the escaped keyword [k] match, one by one under
    IGNORECASE, the characters at the start of [t]. *)
Fixpoint ci_prefix (k t : list char) : bool :=
  match k, t with
  | [], _ => true
  | _ :: _, [] => false
  | p :: k', c :: t' => ci_match p c && ci_prefix k' t'
  end.

(** The pattern [\b k \b] with IGNORECASE matches at the current position:
    [prev] is the character before it, [t] the text from it on. *)
Definition match_here (k : list char) (prev : option char) (t : list char) : bool :=
  boundary prev (head t)
  && ci_prefix k t
  && boundary (last (take (length k) t)) (head (drop (length k) t)).

(** [re.sub] scanning from the current position: a match is replaced by
    the marked match and the scan goes on behind it, otherwise the
    character is copied. [fuel] bounds the number of scan steps. *)
Fixpoint re_sub_from (fuel : nat) (k : list char) (prev : option char)
    (t : list char) : list char :=
  match fuel, t with
  | _, [] => []
  | O, _ => t
  | S f, c :: t' =>
      if match_here k prev t
      then HL_S ++ take (length k) t ++ HL_E
           ++ re_sub_from f k (last (take (length k) t)) (drop (length k) t)
      else c :: re_sub_from f k (Some c) t'
  end.

(** [re.sub(rf"\b{re.escape(k)}\b", f"{HL_S}\g<0>{HL_E}", t, flags=re.I)]
    for a non-empty keyword [k]. *)
Definition re_sub (k : list char) (t : list char) : list char :=
  re_sub_from (length t) k None t.

(** Insertion for [sorted(..., key=len, reverse=True)]: behind the keywords
    already placed that are at least as long. *)
Fixpoint insort_len (k : string) (l : list string) : list string :=
  match l with
  | [] => [k]
  | y :: l' =>
      if (String.length y <? String.length k)%nat then k :: l
      else y :: insort_len k l'
  end.

Definition sorted_by_len_desc (ks : list string) : list string :=
  foldl (fun acc k => insort_len k acc) [] ks.

Section Analyze.

(** The iteration order of the set [ALL_KEYWORDS]. *)
Variable kw_iter : list string.

(** [list(nlp(text).sents)] *)
Variable nlp_sents : list char -> list Span.

Definition highlight (t : list char) : list char :=
  foldl (fun t k => re_sub (str k) t) t (sorted_by_len_desc kw_iter).

(** [sents[i]]: negative indices count from the end, an index out of
    range raises [IndexError] ([None]). *)
Definition getitem (sents : list Span) (i : Z) : option Span :=
  if 0 <=? i then sents !! Z.to_nat i
  else if 0 <=? i + Z.of_nat (length sents)
  then sents !! Z.to_nat (i + Z.of_nat (length sents))
  else None.

(** [[highlight(sents[i].text.strip()) for i in range(a,b)]] *)
Definition context_lines (sents : list Span) (a b : Z) : option (list (list char)) :=
  mapM (fun i => s ← getitem sents i; Some (highlight (strip (span_text s))))
       (seqZ a (b - a)).

(** [out[k].append(x)] on a [defaultdict(list)], keys kept in insertion
    order. *)
Fixpoint dd_append {A} (k : string) (x : A) (out : list (string * list A))
    : list (string * list A) :=
  match out with
  | [] => [(k, [x])]
  | (k', v) :: rest =>
      if bool_decide (k = k') then (k', v ++ [x]) :: rest
      else (k', v) :: dd_append k x rest
  end.

(** The body of [for a,b,score,tags in merged]. *)
Definition render_step (sents : list Span)
    (out : option (list (string * list (Z * list (list char)))))
    (r : Hit) : option (list (string * list (Z * list (list char)))) :=
  out ← out;
  ctx ← context_lines sents (window_start r) (window_end r);
  Some (dd_append (classify (tags r)) (score r, ctx) out).

Definition analyze (text : list char)
    : option (list (string * list (Z * list (list char)))) :=
  let sents := nlp_sents text in
  match sents with
  | [] => Some []
  | _ => foldl (render_step sents) (Some []) (merge (collect_hits sents))
  end.

End Analyze.

(** [out[k]] read without inserting: the list stored under [k], empty when
    the key is absent. *)
Definition dd_get {A} (k : string) (out : list (string * list A)) : list A :=
  match find (fun kv => bool_decide (fst kv = k)) out with
  | Some kv => snd kv
  | None => []
  end.

(** ** The input loop of the scripts *)

(** [while (l := input()): lines.append(l)]: the lines typed are read up
    to the first empty one; [inputs] are the lines the terminal delivers,
    and running out of them raises [EOFError] ([None]). *)
Fixpoint read_lines (inputs : list (list char)) : option (list (list char)) :=
  match inputs with
  | [] => None
  | l :: rest =>
      match l with
      | [] => Some []
      | _ :: _ => lines ← read_lines rest; Some (l :: lines)
      end
  end.

Definition newline : char := 10%N.

(** [sep.join(lines)] *)
Fixpoint join (sep : list char) (lines : list (list char)) : list char :=
  match lines with
  | [] => []
  | [l] => l
  | l :: rest => l ++ sep ++ join sep rest
  end.

(** The text the annotation script hands to [analyze]: [None] when reading
    raises, [Some None] when the script exits for want of text. *)
Definition script_text (inputs : list (list char))
    : option (option (list char)) :=
  lines ← read_lines inputs;
  let text := join [newline] lines in
  Some (match strip text with
        | [] => None
        | _ :: _ => Some text
        end).

(** ** The ranked sentence extractor *)

(** [t.split(sep)] for a separator of one character. *)
Fixpoint split_on (sep : char) (t : list char) : list (list char) :=
  match t with
  | [] => [[]]
  | c :: t' =>
      if bool_decide (c = sep) then [] :: split_on sep t'
      else match split_on sep t' with
           | [] => [[c]]
           | p :: ps => (c :: p) :: ps
           end
  end.

Definition period : char := 46%N.

(** [sum(1 for k in keywords if k in sentence_lower)] *)
Definition keyword_score (keywords : list (list char)) (sentence_lower : list char) : Z :=
  Z.of_nat (length (filter (λ k, contains k sentence_lower = true) keywords)).

(** The loop that fills [scored_sentences]. *)
Definition scored_sentences (text : list char) (stationary_keywords : list (list char))
    : list (Z * list char) :=
  let keywords := lower <$> stationary_keywords in
  flat_map
    (λ sentence,
       let sc := keyword_score keywords (lower sentence) in
       if 0 <? sc then [(sc, strip sentence)] else [])
    (split_on period text).

(** [a < b] on strings: by the first differing character, a proper prefix
    being smaller. *)
Fixpoint str_lt (a b : list char) : bool :=
  match a, b with
  | _, [] => false
  | [], _ :: _ => true
  | x :: a', y :: b' =>
      if bool_decide (x = y) then str_lt a' b' else (x <? y)%N
  end.

(** [x < y] on the tuples (score, sentence). *)
Definition ranked_lt (x y : Z * list char) : bool :=
  if bool_decide (fst x ≠ fst y) then fst x <? fst y
  else str_lt (snd x) (snd y).

Fixpoint insort_ranked (x : Z * list char) (l : list (Z * list char))
    : list (Z * list char) :=
  match l with
  | [] => [x]
  | y :: l' => if ranked_lt x y then x :: l else y :: insort_ranked x l'
  end.

(** [l.sort(reverse=True)]: the list is reversed, sorted ascending by a
    stable sort, and reversed again. *)
Definition sort_reverse (l : list (Z * list char)) : list (Z * list char) :=
  rev (foldl (λ acc x, insort_ranked x acc) [] (rev l)).

Definition extract_ranked_sentences (text : list char)
    (stationary_keywords : list (list char)) : list (list char) :=
  snd <$> sort_reverse (scored_sentences text stationary_keywords).

(** [x] is not smaller than [y]. *)
Definition ranked_ge (x y : Z * list char) : Prop := ranked_lt x y = false.

(** ** Notions used to state the properties *)

(** The five taxonomy labels. *)
Definition LABELS : list string :=
  [ "CONFIRMED CRITICAL RANGES"; "USED / SAMPLE RANGES"; "SOLVENT COMPOSITION";
    "TABLE / NUMERIC DATA"; "OTHER RELEVANT INFORMATION" ].

(** The two tag combinations tested first by the classifier. *)
Definition critical_range (tags : gset string) : Prop :=
  "CRITICAL" ∈ tags ∧ "NUMERIC_RANGE" ∈ tags.

Definition sample_range (tags : gset string) : Prop :=
  "SAMPLE" ∈ tags ∧ "NUMERIC_RANGE" ∈ tags.

(** The order of the first two tuple components. *)
Definition window_le (x y : Hit) : Prop :=
  window_start x < window_start y
  ∨ (window_start x = window_start y ∧ window_end x ≤ window_end y).

(** A window inside a document of [n] sentences. *)
Definition in_bounds (n : Z) (h : Hit) : Prop :=
  0 ≤ window_start h ∧ window_start h < window_end h ∧ window_end h ≤ n.

(** [r1] ends strictly before [r2] starts. *)
Definition separated (r1 r2 : Hit) : Prop := window_end r1 < window_start r2.

Definition starts_before (r1 r2 : Hit) : Prop :=
  window_start r1 < window_start r2.

(** The slice [l[a:b]] for [0 <= a <= b]. *)
Definition slice {A} (l : list A) (a b : Z) : list A :=
  take (Z.to_nat (b - a)) (drop (Z.to_nat a) l).

(** The output entry of a region: its score and the highlighted, stripped
    texts of the sentences of its window, in the order of the document. *)
Definition entry_of (kw_iter : list string) (sents : list Span) (r : Hit)
    : Z * list (list char) :=
  (score r,
   (λ s, highlight kw_iter (strip (span_text s)))
     <$> slice sents (window_start r) (window_end r)).

(** *** The score as the specification words it *)

(** [VOCAB[name]] *)
Definition category_words (name : string) : list string :=
  match find (λ e, bool_decide (fst e = name)) VOCAB with
  | Some e => snd e
  | None => []
  end.

(** Some keyword of the category occurs as a substring of the lowercased
    sentence text. *)
Definition category_matches (name : string) (s : Span) : bool :=
  any_in (lower (span_text s)) (category_words name).

Definition RULES : list string :=
  ["MEASUREMENT"; "NUMERIC_RANGE"; "SOLVENT_RATIO"].

(** The number of match occurrences of a pattern rule in the sentence. *)
Definition occurrences (rule : string) (s : Span) : nat :=
  length (filter (λ m, fst (fst m) = rule) (matcher s)).

(** The table heuristic fires on the sentence. *)
Definition table_fires (s : Span) : bool :=
  looks_like_table (strip (span_text s)).

(** A contribution that counts at most once. *)
Definition once (b : bool) (v : Z) : Z := if b then v else 0.

Definition sumZ (l : list Z) : Z := foldr Z.add 0 l.

Definition spec_score (s : Span) : Z :=
  sumZ ((λ name, once (category_matches name s) 3)
          <$> filter (λ name, name ≠ "SOLVENT") (fst <$> VOCAB))
  + once (category_matches "SOLVENT" s) 2
  + sumZ ((λ rule, 4 * Z.of_nat (occurrences rule s)) <$> RULES)
  + once (table_fires s) 3.

Definition spec_tags (s : Span) (x : string) : Prop :=
  (x ∈ (fst <$> VOCAB) ∧ category_matches x s = true)
  ∨ (x ∈ RULES ∧ (0 < occurrences x s)%nat)
  ∨ (x = "TABLE" ∧ table_fires s = true).

(** *** The table condition as the specification words it *)

Definition has_digit (t : list char) : Prop :=
  ∃ c, c ∈ t ∧ is_digit c = true.

(** [w] occurs in [t] as a contiguous substring. *)
Definition occurs_in (w t : list char) : Prop :=
  ∃ pre post, t = pre ++ w ++ post.

Definition tab : char := 9%N.

Definition table_like (t : list char) : Prop :=
  has_digit t ∧ (occurs_in (str "  ") t ∨ tab ∈ t).

(** Score and tags of a sentence before the table test. *)
Definition text_score (s : Span) : Z * gset string :=
  foldl match_step (foldl (vocab_step (lower (span_text s))) (0, ∅) VOCAB)
        (matcher s).

(** A sentence whose text ends in a tab: the token [5] and the white-space
    token behind it. *)
Definition tab_sentence : Span :=
  mkSpan [53%N; tab]
         [mkToken (str "5") true; mkToken [tab] false].

(** A sentence of ASCII characters: its text and the texts of its
    tokens. *)
Definition ascii_span (s : Span) : bool :=
  ascii_text (span_text s)
  && forallb (λ tok, ascii_text (TEXT tok)) (span_tokens s).

(** *** The scenario sentence *)

Definition pore_text : list char :=
  str "The pore size was specified as 50-100 nm.".

Definition pore_sentence : Span :=
  mkSpan pore_text
    [ mkToken (str "The") false; mkToken (str "pore") false;
      mkToken (str "size") false; mkToken (str "was") false;
      mkToken (str "specified") false; mkToken (str "as") false;
      mkToken (str "50") true; mkToken (str "-") false;
      mkToken (str "100") true; mkToken (str "nm") false;
      mkToken (str ".") false ].

(** A hit window with [start <= end], as every window built by the
    scoring loop is. *)
Definition window_ok (h : Hit) : Prop := window_start h ≤ window_end h.

Definition starts_le (x y : Hit) : Prop := window_start x ≤ window_start y.

(** *** Whole-word marking *)

(** A keyword that starts and ends with an ASCII letter, digit or
    underscore. *)
Definition kw_ok (k : list char) : bool :=
  match head k, last k with
  | Some a, Some b => ascii_word a && ascii_word b
  | _, _ => false
  end.

(** The text [m] matches the escaped keyword [k] under IGNORECASE,
    character by character. *)
Definition ci_equal (k m : list char) : bool :=
  ci_prefix k m && bool_decide (length m = length k).

(** [wrapped k prev t out]: [out] is the text [t], read behind the
    character [prev], in which some occurrences of the keyword [k] are
    wrapped in the markers; each wrapped span equals [k] up to case, as
    IGNORECASE has it, has no word character right before it and none
    right behind it. *)
Inductive wrapped (k : list char)
    : option char → list char → list char → Prop :=
| wrapped_nil prev : wrapped k prev [] []
| wrapped_copy prev c t out :
    wrapped k (Some c) t out → wrapped k prev (c :: t) (c :: out)
| wrapped_mark prev m rest out :
    ci_equal k m = true →
    is_word_opt prev = false →
    is_word_opt (head rest) = false →
    wrapped k (last m) rest out →
    wrapped k prev (m ++ rest) (HL_S ++ m ++ HL_E ++ out).

(** The passes of [highlight] over the keywords [ks] lead from [t] to
    [out], each pass wrapping whole-word occurrences of its keyword. *)
Inductive highlight_passes : list string → list char → list char → Prop :=
| passes_nil t : highlight_passes [] t t
| passes_cons k ks t t' out :
    wrapped (str k) None t t' →
    highlight_passes ks t' out →
    highlight_passes (k :: ks) t out.

Definition longer_first (a b : string) : Prop :=
  (String.length b ≤ String.length a)%nat.

(** The character before the position behind [pre], [prev] being the
    character before [pre]. *)
Definition prev_after (prev : option char) (pre : list char) : option char :=
  match last pre with
  | Some c => Some c
  | None => prev
  end.

(** *** Notions for the further properties *)

(** The names a tag can have: the categories, the pattern rules, TABLE. *)
Definition TAG_NAMES : list string := (fst <$> VOCAB) ++ RULES ++ ["TABLE"].

(** The accumulator of the scoring loop is consistent: the score is not
    negative, it is 0 exactly when there is no tag, and a score that is
    not 0 is at least 2. *)
Definition score_consistent (st : Z * gset string) : Prop :=
  0 ≤ fst st ∧ (fst st = 0 ↔ snd st = ∅) ∧ (fst st ≠ 0 → 2 ≤ fst st).

(** The window of [h] lies inside the window of [r]. *)
Definition within (h r : Hit) : Prop :=
  window_start r ≤ window_start h ∧ window_end h ≤ window_end r.

(** The sentence index [i] lies in the window of [r]. *)
Definition covers (r : Hit) (i : Z) : Prop :=
  window_start r ≤ i ∧ i < window_end r.

(** The region [r] takes in the hit [h]. *)
Definition absorbs (r h : Hit) : Prop :=
  within h r ∧ tags h ⊆ tags r ∧ score h ≤ score r.

(** Every field of the region [r] comes from hits of [hs] inside it. *)
Definition explained (hs : list Hit) (r : Hit) : Prop :=
  (∃ h, h ∈ hs ∧ within h r ∧ window_start h = window_start r)
  ∧ (∃ h, h ∈ hs ∧ within h r ∧ window_end h = window_end r)
  ∧ (∃ h, h ∈ hs ∧ within h r ∧ score h = score r)
  ∧ (∀ x, x ∈ tags r → ∃ h, h ∈ hs ∧ within h r ∧ x ∈ tags h).

(** The hit built for the sentence [s] at index [i] of [n] sentences. *)
Definition hit_of (n : Z) (i : nat) (s : Span) : Hit :=
  mkHit (Z.max 0 (Z.of_nat i - CONTEXT)) (Z.min n (Z.of_nat i + CONTEXT + 1))
        (fst (score_sentence s)) (snd (score_sentence s)).

(** The entries of an output mapping, label by label. *)
Definition entries {A} (out : list (string * list A)) : list A :=
  concat (snd <$> out).

(** The number of context lines of a list of entries. *)
Definition line_count (es : list (Z * list (list char))) : nat :=
  sum_list_with (λ e, length (snd e)) es.

(** A marker character. *)
Definition is_bracket (c : char) : bool :=
  bool_decide (c = 91%N) || bool_decide (c = 93%N).

(** The text without the marker characters. *)
Definition erase_brackets (t : list char) : list char :=
  filter (λ c, is_bracket c = false) t.

(** The state of the sweep after the hits [seen]: every hit seen is taken
    in by a region, and every region is made of hits seen. *)
Definition sweep_inv (seen merged : list Hit) : Prop :=
  (∀ h, h ∈ seen → ∃ r, r ∈ merged ∧ absorbs r h)
  ∧ Forall (explained seen) merged.

(** *** Sample data for the instances *)

(** A sentence without keyword, number or table layout. *)
Definition plain_sentence : Span :=
  mkSpan (str "Hello there.")
    [mkToken (str "Hello") false; mkToken (str "there") false;
     mkToken (str ".") false].

Definition sample_hits : list Hit :=
  [mkHit 3 8 2 {["SOLVENT"]}; mkHit 0 5 3 {["CRITICAL"]}; mkHit 9 13 1 ∅].

Definition pore_tags : gset string :=
  {["STATIONARY"; "CRITICAL"; "NUMERIC_RANGE"; "MEASUREMENT"]}.

(** ** The condition extractor: column mentions and associations *)

Definition polymer_names : list string :=
  [ "Jordi"; "Nucleosil"; "Discovery"; "Zorbax"; "Tosoh";
    "Phenomenex"; "Agilent"; "Supelco"; "Kromasil"; "YMC";
    "Waters"; "Spherisorb"; "Inertsil"; "Kinetex"; "Chiralpak";
    "Styragel"; "PLgel"; "Diol" ].

(** The local list [polymer_samples] of
    [extract_polymer_column_associations]. *)
Definition polymer_samples : list string :=
  [ "PEG"; "PPG"; "Pluronic"; "Synperonic"; "poloxamer"; "Imbentin";
    "EO-PO-EO"; "PO-EO-PO"; "polyethylene glycol"; "polypropylene glycol";
    "triblock"; "diblock"; "block copolymer" ].

Definition analysis_keywords : list string :=
  [ "analyzed"; "separated"; "eluted"; "chromatogram";
    "measured"; "obtained on"; "using"; "performed on" ].

(** [name.lower() in line.lower()] *)
Definition mentions (name : list char) (line : list char) : bool :=
  contains (lower name) (lower line).

(** One iteration of [for polymer in polymer_names] for a line. *)
Definition mention_step (line : list char)
    (polymer_dict : gmap (list char) (list (list char))) (polymer : list char)
    : gmap (list char) (list (list char)) :=
  if mentions polymer line
  then alter (λ v, v ++ [line]) polymer polymer_dict
  else polymer_dict.

Definition identify_polymers (text : list char) (names : list (list char))
    : gmap (list char) (list (list char)) :=
  let polymer_dict := foldl (λ d name, <[name := []]> d) ∅ names in
  let lines := split_on newline text in
  foldl (λ d line, foldl (mention_step line) d names) polymer_dict lines.

(** The final loop of both extractors: an element is kept when its
    signature has not been seen. *)
Fixpoint unique_by {A S} `{Countable S} (sig : A → S) (seen : gset S)
    (l : list A) : list A :=
  match l with
  | [] => []
  | c :: rest =>
      if bool_decide (sig c ∈ seen) then unique_by sig seen rest
      else c :: unique_by sig ({[sig c]} ∪ seen) rest
  end.

(** An association: the dictionary with the keys polymer, column and
    context. *)
Record Assoc := mkAssoc {
  polymer : string;
  column : string;
  context : list char
}.

(** [[n for n in names if n.lower() in context.lower()]] *)
Definition found_in (names : list string) (ctx : list char) : list string :=
  filter (λ n, mentions (str n) ctx = true) names.

(** [' '.join(lines[max(0, i-2):min(len(lines), i+3)])] *)
Definition context_of (lines : list (list char)) (i : Z) : list char :=
  join [32%N]
       (slice lines (Z.max 0 (i - 2)) (Z.min (Z.of_nat (length lines)) (i + 3))).

(** The body of the loop over [enumerate(lines)]. *)
Definition line_associations (lines : list (list char)) (i : Z)
    (line : list char) : list Assoc :=
  if any_in (lower line) analysis_keywords then
    let found_polymers := found_in polymer_samples (context_of lines i) in
    let found_columns := found_in polymer_names (context_of lines i) in
    match found_polymers, found_columns with
    | _ :: _, _ :: _ =>
        flat_map (λ poly, (λ col, mkAssoc poly col (strip line)) <$> found_columns)
                 found_polymers
    | _, _ => []
    end
  else [].

Fixpoint associations_from (lines : list (list char)) (i : Z)
    (rest : list (list char)) : list Assoc :=
  match rest with
  | [] => []
  | line :: rest' =>
      line_associations lines i line ++ associations_from lines (i + 1) rest'
  end.

Definition assoc_sig (a : Assoc) : string * string := (polymer a, column a).

Definition extract_polymer_column_associations (text : list char) : list Assoc :=
  let lines := split_on newline text in
  unique_by assoc_sig ∅ (associations_from lines 0 lines).

End Model.

(** * Properties *)

(** ** The ASCII database *)

Lemma ascii_lower_char_is_ascii c :
  is_ascii (ascii_lower_char c) = is_ascii c.
Proof.
  unfold ascii_lower_char, ascii_upper, is_ascii.
  destruct ((65 <=? c)%N && (c <=? 90)%N) eqn:Hu; [|done].
  apply andb_true_iff in Hu as [H1%N.leb_le H2%N.leb_le].
  rewrite (proj2 (N.ltb_lt c 128)) by lia. apply N.ltb_lt. lia.
Qed.

Lemma ascii_word_lower_char c : ascii_word (ascii_lower_char c) = ascii_word c.
Proof.
  unfold ascii_lower_char.
  destruct (ascii_upper c) eqn:Hu; [|done].
  unfold ascii_word. rewrite Hu.
  unfold ascii_upper in Hu.
  apply andb_true_iff in Hu as [H1%N.leb_le H2%N.leb_le].
  assert (ascii_small (c + 32) = true) as ->.
  { unfold ascii_small. apply andb_true_iff. rewrite !N.leb_le. lia. }
  by rewrite !orb_true_r.
Qed.

(** [ascii_db] obeys the laws. *)
Lemma ascii_db_laws : unicode_laws ascii_db.
Proof.
  split; try done.
  intros p c Hp Hm. simpl in *. apply bool_decide_eq_true in Hm.
  by rewrite <- (ascii_word_lower_char c), <- Hm, ascii_word_lower_char.
Qed.

Section Properties.

Context `{U : Unicode}.

(** ** Classifier *)

Lemma critical_range_subseteq (tags : gset string) :
  ({["CRITICAL"; "NUMERIC_RANGE"]} : gset string) ⊆ tags ↔ critical_range tags.
Proof.
  unfold critical_range. rewrite union_subseteq, !singleton_subseteq_l. tauto.
Qed.

Lemma sample_range_subseteq (tags : gset string) :
  ({["SAMPLE"; "NUMERIC_RANGE"]} : gset string) ⊆ tags ↔ sample_range tags.
Proof.
  unfold sample_range. rewrite union_subseteq, !singleton_subseteq_l. tauto.
Qed.

(** C3. [classify] is a total function of the tag set alone; its value is one
    of the five labels, which are pairwise distinct, and it is fixed by the
    first rule of the priority list that the tag set satisfies: CRITICAL
    with NUMERIC_RANGE, else SAMPLE with NUMERIC_RANGE, else SOLVENT, else
    TABLE, else the fallback. Equal tag sets receive equal labels. *)
Theorem classify_priority (tgs : gset string) :
  NoDup LABELS ∧ length LABELS = 5%nat ∧
  classify tgs ∈ LABELS ∧
  (∀ tgs' : gset string, tgs' ≡ tgs → classify tgs' = classify tgs) ∧
  ( (critical_range tgs ∧ classify tgs = "CONFIRMED CRITICAL RANGES")
    ∨ (¬ critical_range tgs ∧ sample_range tgs
       ∧ classify tgs = "USED / SAMPLE RANGES")
    ∨ (¬ critical_range tgs ∧ ¬ sample_range tgs ∧ "SOLVENT" ∈ tgs
       ∧ classify tgs = "SOLVENT COMPOSITION")
    ∨ (¬ critical_range tgs ∧ ¬ sample_range tgs ∧ ("SOLVENT" ∉ tgs)
       ∧ "TABLE" ∈ tgs ∧ classify tgs = "TABLE / NUMERIC DATA")
    ∨ (¬ critical_range tgs ∧ ¬ sample_range tgs ∧ ("SOLVENT" ∉ tgs)
       ∧ ("TABLE" ∉ tgs) ∧ classify tgs = "OTHER RELEVANT INFORMATION") ).
Proof.
  split; [|split; [reflexivity|split; [|split]]].
  - compute_done.
  - unfold classify, LABELS. repeat case_bool_decide;
      rewrite !elem_of_cons; tauto.
  - intros tgs' Heq. apply leibniz_equiv in Heq. by subst.
  - unfold classify.
    repeat case_bool_decide;
      rewrite ?critical_range_subseteq, ?sample_range_subseteq in *; tauto.
Qed.

(** ** Hits built by the scoring loop *)

Lemma hits_from_elem (n i : Z) (sents : list Span) (h : Hit) :
  h ∈ hits_from n i sents ↔
  ∃ (j : nat) (s : Span),
    sents !! j = Some s ∧ fst (score_sentence s) ≠ 0 ∧
    h = mkHit (Z.max 0 (i + Z.of_nat j - CONTEXT))
              (Z.min n (i + Z.of_nat j + CONTEXT + 1))
              (fst (score_sentence s)) (snd (score_sentence s)).
Proof.
  revert i. induction sents as [|s rest IH]; intros i; simpl.
  - split; [intros H; inversion H | intros (j & s & H & _); by destruct j].
  - rewrite elem_of_app, IH. split.
    + intros [H | (j & s' & Hj & Hs & ->)].
      * case_bool_decide; [|inversion H].
        apply list_elem_of_singleton in H as ->.
        exists 0%nat, s. rewrite Z.add_0_r. done.
      * exists (S j), s'. split; [done|]. split; [done|].
        f_equal; lia.
    + intros (j & s' & Hj & Hs & ->). destruct j as [|j]; simpl in Hj.
      * injection Hj as ->. left. rewrite bool_decide_eq_true_2 by done.
        rewrite Z.add_0_r. apply list_elem_of_singleton. done.
      * right. exists j, s'. split; [done|]. split; [done|].
        f_equal; lia.
Qed.

(** ** The sort *)

Lemma hit_lt_true_window_le x y : hit_lt x y = true → window_le x y.
Proof.
  unfold hit_lt, window_le. repeat case_bool_decide;
    rewrite ?Z.ltb_lt; intros; lia.
Qed.

Lemma hit_lt_false_window_le x y : hit_lt x y = false → window_le y x.
Proof.
  unfold hit_lt, window_le. repeat case_bool_decide;
    rewrite ?Z.ltb_ge; intros; lia.
Qed.

Lemma window_le_trans x y z : window_le x y → window_le y z → window_le x z.
Proof. unfold window_le. lia. Qed.

Lemma insort_perm x l : insort x l ≡ₚ x :: l.
Proof.
  induction l as [|y l IH]; simpl; [done|].
  destruct (hit_lt x y); [done|].
  rewrite IH. apply Permutation_swap.
Qed.

Lemma sorted_perm hits : sorted hits ≡ₚ hits.
Proof.
  unfold sorted.
  assert (∀ acc, foldl (λ acc x, insort x acc) acc hits ≡ₚ acc ++ hits) as H.
  { induction hits as [|x hits IH]; intros acc; simpl.
    - by rewrite app_nil_r.
    - rewrite IH, insort_perm. simpl. apply Permutation_middle. }
  apply H.
Qed.

Lemma insort_sorted x l :
  StronglySorted window_le l → StronglySorted window_le (insort x l).
Proof.
  induction l as [|y l IH]; simpl; intros Hs.
  - repeat constructor.
  - apply StronglySorted_cons in Hs as [Hy Hl].
    destruct (hit_lt x y) eqn:Hlt.
    + apply StronglySorted_cons. split; [|by apply StronglySorted_cons].
      apply hit_lt_true_window_le in Hlt. constructor; [done|].
      eapply Forall_impl; [exact Hy|]. intros z. by apply window_le_trans.
    + apply StronglySorted_cons. split; [|by apply IH].
      rewrite insort_perm. constructor; [|done].
      by apply hit_lt_false_window_le.
Qed.

Lemma sorted_sorted hits : StronglySorted window_le (sorted hits).
Proof.
  unfold sorted.
  assert (∀ acc, StronglySorted window_le acc →
            StronglySorted window_le (foldl (λ acc x, insort x acc) acc hits)) as H.
  { induction hits as [|x hits IH]; intros acc Hacc; simpl; [done|].
    apply IH. by apply insort_sorted. }
  apply H. constructor.
Qed.

(** ** The sweep *)

Lemma merge_step_nil h : merge_step [] h = [h].
Proof. reflexivity. Qed.

Lemma merge_step_new init r h :
  window_end r < window_start h →
  merge_step (init ++ [r]) h = init ++ [r; h].
Proof.
  intros H. unfold merge_step. rewrite last_snoc.
  apply Z.ltb_lt in H. rewrite H. by rewrite <- app_assoc.
Qed.

Lemma merge_step_absorb init r h :
  window_start h ≤ window_end r →
  merge_step (init ++ [r]) h =
  init ++ [mkHit (window_start r) (Z.max (window_end r) (window_end h))
                 (Z.max (score r) (score h)) (tags r ∪ tags h)].
Proof.
  intros H. unfold merge_step. rewrite last_snoc.
  apply Z.ltb_ge in H. rewrite H. by rewrite removelast_last.
Qed.

Lemma in_bounds_separated_trans n r1 r2 r3 :
  in_bounds n r2 → separated r1 r2 → separated r2 r3 → separated r1 r3.
Proof. unfold in_bounds, separated. lia. Qed.

(** The sweep keeps every region inside the document and every region
    strictly behind the end of the regions before it. *)
Lemma merge_step_invariant n merged h :
  in_bounds n h →
  Forall (in_bounds n) merged → StronglySorted separated merged →
  Forall (in_bounds n) (merge_step merged h)
  ∧ StronglySorted separated (merge_step merged h).
Proof.
  intros Hh Hb Hs.
  destruct merged as [|r0 merged0] using rev_ind.
  { rewrite merge_step_nil. split; [by apply Forall_singleton|].
    repeat constructor. }
  clear IHmerged0. rename r0 into r, merged0 into init.
  apply Forall_app in Hb as [Hbi Hbr].
  rewrite Forall_singleton in Hbr.
  apply StronglySorted_app in Hs as (Hcross & Hsi & _).
  destruct (decide (window_end r < window_start h)) as [Hnew | Habs].
  - rewrite merge_step_new by done. split.
    + apply Forall_app. split; [done|].
      apply Forall_cons. split; [done|]. by apply Forall_singleton.
    + apply StronglySorted_app. split_and!; [|done|].
      * intros x1 x2 Hx1 Hx2.
        apply elem_of_cons in Hx2 as [-> | Hx2]; [apply Hcross; [done|left]|].
        apply list_elem_of_singleton in Hx2 as ->.
        eapply in_bounds_separated_trans; [exact Hbr| |exact Hnew].
        apply Hcross; [done|left].
      * repeat constructor. done.
  - rewrite merge_step_absorb by lia. split.
    + apply Forall_app. split; [done|]. apply Forall_singleton.
      unfold in_bounds in *; simpl. lia.
    + apply StronglySorted_app. split_and!; [|done|repeat constructor].
      intros x1 x2 Hx1 Hx2. apply list_elem_of_singleton in Hx2 as ->.
      unfold separated; simpl. apply (Hcross x1 r); [done|left].
Qed.

Lemma sweep_invariant n hs :
  Forall (in_bounds n) hs →
  Forall (in_bounds n) (sweep hs) ∧ StronglySorted separated (sweep hs).
Proof.
  unfold sweep. intros Hhs.
  assert (∀ acc, Forall (in_bounds n) acc → StronglySorted separated acc →
            Forall (in_bounds n) (foldl merge_step acc hs)
            ∧ StronglySorted separated (foldl merge_step acc hs)) as H.
  { induction Hhs as [|h hs Hh Hhs IH]; intros acc Hb Hs; simpl; [done|].
    destruct (merge_step_invariant n acc h Hh Hb Hs). by apply IH. }
  apply H; constructor.
Qed.

Lemma collect_hits_in_bounds sents :
  Forall (in_bounds (Z.of_nat (length sents))) (collect_hits sents).
Proof.
  apply Forall_forall. intros h Hh. unfold collect_hits in Hh.
  apply hits_from_elem in Hh as (j & s & Hj & _ & ->).
  apply lookup_lt_Some in Hj.
  unfold in_bounds, CONTEXT; simpl. lia.
Qed.

Lemma merge_in_bounds sents :
  Forall (in_bounds (Z.of_nat (length sents))) (merge (collect_hits sents))
  ∧ StronglySorted separated (merge (collect_hits sents)).
Proof.
  apply sweep_invariant. rewrite sorted_perm. apply collect_hits_in_bounds.
Qed.

Lemma separated_starts_before n l :
  Forall (in_bounds n) l → StronglySorted separated l →
  StronglySorted starts_before l.
Proof.
  intros Hb Hs. induction Hs as [|r l Hs IH Hr]; [constructor|].
  apply Forall_cons in Hb as [Hr0 Hb].
  constructor; [by apply IH|].
  eapply Forall_impl; [exact Hr|]. intros r'.
  unfold separated, starts_before, in_bounds in *. lia.
Qed.

(** ** Rendering *)

Section Rendering.
Variable kw_iter : list string.
Variable sents : list Span.

Lemma getitem_nat (i : nat) :
  getitem sents (Z.of_nat i) = sents !! i.
Proof.
  unfold getitem. rewrite (proj2 (Z.leb_le 0 _)) by lia. by rewrite Nat2Z.id.
Qed.

Lemma context_lines_nat (len a : nat) :
  (a + len ≤ length sents)%nat →
  context_lines kw_iter sents (Z.of_nat a) (Z.of_nat a + Z.of_nat len) =
  Some ((λ s, highlight kw_iter (strip (span_text s))) <$> take len (drop a sents)).
Proof.
  unfold context_lines. revert a. induction len as [|len IH]; intros a Hle.
  - rewrite seqZ_nil by lia. reflexivity.
  - rewrite seqZ_cons by lia.
    destruct (lookup_lt_is_Some_2 sents a) as [s Hs]; [lia|].
    rewrite (drop_S _ _ _ Hs). simpl.
    rewrite getitem_nat, Hs. simpl.
    replace (Z.succ (Z.of_nat a)) with (Z.of_nat (S a)) by lia.
    replace (Z.pred (Z.of_nat a + Z.of_nat (S len) - Z.of_nat a))
      with (Z.of_nat (S a) + Z.of_nat len - Z.of_nat (S a)) by lia.
    rewrite IH by lia. reflexivity.
Qed.

Lemma context_lines_slice (r : Hit) :
  in_bounds (Z.of_nat (length sents)) r →
  context_lines kw_iter sents (window_start r) (window_end r) =
  Some (snd (entry_of kw_iter sents r)).
Proof.
  intros (H0 & Hlt & Hn). unfold entry_of, slice; simpl.
  rewrite <- (context_lines_nat _ _) by lia.
  f_equal; lia.
Qed.

Lemma dd_get_dd_append {A} (k k' : string) (x : A) out :
  dd_get k (dd_append k' x out) =
  if bool_decide (k = k') then dd_get k out ++ [x] else dd_get k out.
Proof.
  unfold dd_get. induction out as [|[k0 v] rest IH]; simpl.
  - repeat case_bool_decide; simpl in *; congruence.
  - repeat case_bool_decide; simpl in *;
      repeat case_bool_decide; simpl in *; try congruence.
Qed.

Lemma render_fold (rs : list Hit) out0 :
  Forall (in_bounds (Z.of_nat (length sents))) rs →
  ∃ out,
    foldl (render_step kw_iter sents) (Some out0) rs = Some out
    ∧ ∀ label,
        dd_get label out =
        dd_get label out0
        ++ (entry_of kw_iter sents
              <$> filter (λ r, classify (tags r) = label) rs).
Proof.
  intros Hrs. revert out0.
  induction Hrs as [|r rs Hr Hrs IH]; intros out0; simpl.
  - exists out0. split; [done|]. intros label. by rewrite app_nil_r.
  - rewrite (context_lines_slice r Hr). simpl.
    destruct (IH (dd_append (classify (tags r))
                    (score r, snd (entry_of kw_iter sents r)) out0))
      as (out & Hout & Hget).
    exists out. split; [done|]. intros label.
    rewrite Hget, dd_get_dd_append, filter_cons.
    case_bool_decide; case_decide; try congruence.
    rewrite fmap_cons, <- app_assoc. reflexivity.
Qed.

End Rendering.

(** ** Windows and the merge rule *)

(** C1. A sentence with nonzero score at index [i] of [n] sentences yields
    the hit with window [max(0, i-2), min(n, i+2+1)); the merge pass sweeps
    the hits sorted ascending by window start, ties by window end; a step
    of the sweep appends the hit as a new region when the output is empty
    or the hit starts strictly behind the end of the last region, and
    otherwise, adjacency included, replaces the last region by the one with
    the larger end, the larger score and the union of the tags. *)
Theorem hit_windows_and_merge_rule (sents : list Span) :
  (∀ (i : nat) (s : Span),
     sents !! i = Some s → fst (score_sentence s) ≠ 0 →
     mkHit (Z.max 0 (Z.of_nat i - 2))
           (Z.min (Z.of_nat (length sents)) (Z.of_nat i + 2 + 1))
           (fst (score_sentence s)) (snd (score_sentence s))
     ∈ collect_hits sents)
  ∧ (∀ hits : list Hit,
       merge hits = foldl merge_step [] (sorted hits)
       ∧ sorted hits ≡ₚ hits
       ∧ StronglySorted window_le (sorted hits))
  ∧ (∀ (merged : list Hit) (h : Hit),
       (merged = [] → merge_step merged h = [h])
       ∧ (∀ init r, merged = init ++ [r] →
            (window_start h > window_end r →
             merge_step merged h = merged ++ [h])
            ∧ (window_start h ≤ window_end r →
               merge_step merged h =
               init ++ [mkHit (window_start r)
                              (Z.max (window_end r) (window_end h))
                              (Z.max (score r) (score h))
                              (tags r ∪ tags h)]))).
Proof.
  split_and!.
  - intros i s Hi Hs. unfold collect_hits. apply hits_from_elem.
    exists i, s. split; [done|]. split; [done|]. unfold CONTEXT. f_equal; lia.
  - intros hits. split_and!; [done|apply sorted_perm|apply sorted_sorted].
  - intros merged h. split; [by intros ->|].
    intros init r ->. split; intros H.
    + rewrite merge_step_new by lia. by rewrite <- app_assoc.
    + by apply merge_step_absorb.
Qed.

(** ** Regions of a document *)

(** C10. Every merged region of a document of [n] sentences has bounds
    [0 <= a < b <= n]: it spans at least one sentence, each index of its
    window denotes a sentence of the document, and building its context
    lines succeeds. *)
Theorem merged_regions_in_bounds (kw_iter : list string) (sents : list Span)
    (r : Hit) :
  r ∈ merge (collect_hits sents) →
  0 ≤ window_start r ∧ window_start r < window_end r
  ∧ window_end r ≤ Z.of_nat (length sents)
  ∧ (∀ i : Z, window_start r ≤ i < window_end r →
       (Z.to_nat i < length sents)%nat
       ∧ ∃ s, sents !! Z.to_nat i = Some s ∧ getitem sents i = Some s)
  ∧ is_Some (context_lines kw_iter sents (window_start r) (window_end r)).
Proof.
  intros Hr.
  destruct (merge_in_bounds sents) as [Hb _].
  rewrite Forall_forall in Hb. specialize (Hb r Hr).
  pose proof Hb as (H0 & Hlt & Hn).
  split_and!; try done.
  - intros i Hi.
    assert (Z.to_nat i < length sents)%nat as Hlen by lia.
    split; [done|].
    destruct (lookup_lt_is_Some_2 sents _ Hlen) as [s Hs].
    exists s. split; [done|].
    rewrite <- (Z2Nat.id i) by lia. by rewrite getitem_nat.
  - rewrite (context_lines_slice kw_iter sents r Hb). by eexists.
Qed.

(** C7. The merged regions of a document are pairwise disjoint, each one
    starting strictly behind the end of every earlier one, and ascending by
    start; [analyze] returns a mapping in which the list of each label holds
    the entries of the regions with that label in the order of the regions,
    each entry listing the sentences of the window in document order. *)
Theorem regions_disjoint_and_ordered (kw_iter : list string)
    (nlp_sents : list char → list Span) (text : list char) :
  StronglySorted separated (merge (collect_hits (nlp_sents text)))
  ∧ StronglySorted starts_before (merge (collect_hits (nlp_sents text)))
  ∧ ∃ out,
      analyze kw_iter nlp_sents text = Some out
      ∧ ∀ label,
          dd_get label out =
          entry_of kw_iter (nlp_sents text)
            <$> filter (λ r, classify (tags r) = label)
                       (merge (collect_hits (nlp_sents text))).
Proof.
  destruct (merge_in_bounds (nlp_sents text)) as [Hb Hs].
  split_and!; [done|by eapply separated_starts_before|].
  unfold analyze. destruct (nlp_sents text) as [|s0 rest] eqn:Hsents.
  - exists []. split; [done|]. intros label. reflexivity.
  - destruct (render_fold kw_iter (s0 :: rest) _ [] Hb) as (out & Hout & Hget).
    exists out. split; [done|]. intros label. by rewrite Hget.
Qed.

Lemma collect_hits_no_score sents :
  (∀ s, s ∈ sents → fst (score_sentence s) = 0) → collect_hits sents = [].
Proof.
  intros Hz. apply elem_of_nil_inv. intros h Hh.
  apply hits_from_elem in Hh as (j & s & Hj & Hs & _).
  apply Hs, Hz. by eapply list_elem_of_lookup_2.
Qed.

(** C8. [analyze] returns the empty mapping, and no error, when the
    segmentation yields no sentence and when no sentence of the document
    has a nonzero score. *)
Theorem analyze_nothing_relevant (kw_iter : list string)
    (nlp_sents : list char → list Span) (text : list char) :
  nlp_sents text = []
  ∨ (∀ s, s ∈ nlp_sents text → fst (score_sentence s) = 0) →
  analyze kw_iter nlp_sents text = Some [].
Proof.
  unfold analyze. intros [-> | Hz]; [done|].
  destruct (nlp_sents text) as [|s0 rest]; [done|].
  by rewrite (collect_hits_no_score _ Hz).
Qed.

(** ** Scoring *)

Lemma vocab_fold tl (V : list (string * list string)) (st : Z * gset string) :
  foldl (vocab_step tl) st V =
  (fst st + sumZ ((λ e, once (any_in tl (snd e))
                          (if bool_decide (fst e ≠ "SOLVENT") then 3 else 2)) <$> V),
   snd st ∪ list_to_set (fst <$> filter (λ e, any_in tl (snd e) = true) V)).
Proof.
  revert st. induction V as [|e V IH]; intros [sc tg]; simpl.
  - f_equal; [lia|]. by rewrite union_empty_r_L.
  - rewrite IH, filter_cons. unfold vocab_step.
    destruct (any_in tl (snd e)) eqn:He; simpl.
    + f_equal; [symmetry; apply Z.add_assoc | symmetry; apply (assoc_L (∪))].
    + reflexivity.
Qed.

Lemma match_fold (ms : list (string * nat * nat)) (st : Z * gset string) :
  foldl match_step st ms =
  (fst st + 4 * Z.of_nat (length ms),
   snd st ∪ list_to_set ((λ m, fst (fst m)) <$> ms)).
Proof.
  revert st. induction ms as [|m ms IH]; intros [sc tg]; simpl.
  - f_equal; [lia|]. by rewrite union_empty_r_L.
  - rewrite IH. unfold match_step. simpl. f_equal.
    + lia.
    + symmetry; apply (assoc_L (∪)).
Qed.

Lemma matches_at_keys i toks :
  Forall (λ m, fst (fst m) ∈ RULES) (matches_at i toks).
Proof.
  unfold matches_at, PATTERNS, RULES. cbn -[pattern_at].
  repeat (destruct (pattern_at _ toks)); cbn;
    repeat (apply Forall_cons; split; [cbn; rewrite !elem_of_cons; tauto|]);
    apply Forall_nil_2.
Qed.

Lemma matcher_keys s : Forall (λ m, fst (fst m) ∈ RULES) (matcher s).
Proof.
  unfold matcher. generalize 0%nat.
  induction (span_tokens s) as [|t toks IH]; intros i; simpl; [constructor|].
  apply Forall_app. split; [apply matches_at_keys | apply IH].
Qed.

Lemma occurrences_total s :
  length (matcher s) =
  (occurrences "MEASUREMENT" s + occurrences "NUMERIC_RANGE" s
   + occurrences "SOLVENT_RATIO" s)%nat.
Proof.
  unfold occurrences. pose proof (matcher_keys s) as Hk.
  induction Hk as [|m ms Hm Hk IH]; [done|].
  rewrite !filter_cons. unfold RULES in Hm.
  rewrite !elem_of_cons, elem_of_nil in Hm.
  destruct Hm as [-> | [-> | [-> | []]]];
    repeat case_decide; try done; simpl; lia.
Qed.

Lemma category_words_entry e : e ∈ VOCAB → category_words (fst e) = snd e.
Proof.
  unfold VOCAB. rewrite !elem_of_cons, elem_of_nil.
  intros [-> | [-> | [-> | [-> | []]]]]; reflexivity.
Qed.

Lemma vocab_tags (s : Span) (x : string) :
  x ∈ (list_to_set
         (fst <$> filter (λ e, any_in (lower (span_text s)) (snd e) = true) VOCAB)
       : gset string)
  ↔ x ∈ (fst <$> VOCAB) ∧ category_matches x s = true.
Proof.
  rewrite elem_of_list_to_set, !list_elem_of_fmap. unfold category_matches.
  split.
  - intros (e & -> & He). apply list_elem_of_filter in He as [Hm He].
    split; [by exists e|]. by rewrite category_words_entry.
  - intros [(e & -> & He) Hm]. exists e. split; [done|].
    apply list_elem_of_filter. split; [|done].
    by rewrite category_words_entry in Hm.
Qed.

Lemma rule_tags (s : Span) (x : string) :
  x ∈ (list_to_set ((λ m, fst (fst m)) <$> matcher s) : gset string)
  ↔ x ∈ RULES ∧ (0 < occurrences x s)%nat.
Proof.
  rewrite elem_of_list_to_set, list_elem_of_fmap. unfold occurrences. split.
  - intros (m & -> & Hm). split.
    + pose proof (matcher_keys s) as Hk. rewrite Forall_forall in Hk. by apply Hk.
    + assert (m ∈ filter (λ m', fst (fst m') = fst (fst m)) (matcher s)) as Hf
        by (by apply list_elem_of_filter).
      destruct (filter _ (matcher s)); [by apply elem_of_nil in Hf|simpl; lia].
  - intros [_ Hpos].
    destruct (filter (λ m, fst (fst m) = x) (matcher s)) as [|m l] eqn:Hf;
      [simpl in Hpos; lia|].
    assert (m ∈ filter (λ m, fst (fst m) = x) (matcher s)) as Hm
      by (rewrite Hf; left).
    apply list_elem_of_filter in Hm as [Hx Hm]. by exists m.
Qed.

(** C2. The score of a sentence is the sum of +3 for each vocabulary
    category other than SOLVENT with a keyword occurring in the lowercased
    text, +2 for SOLVENT, +4 for each match occurrence of the three pattern
    rules, and +3 when the table heuristic fires; categories and the table
    heuristic count once. The tags are the names of the categories and
    rules that fired and TABLE, each present once however often a rule
    matched. *)
Theorem score_is_sum_of_contributions (s : Span) :
  fst (score_sentence s) = spec_score s
  ∧ ∀ x, x ∈ snd (score_sentence s) ↔ spec_tags s x.
Proof.
  unfold score_sentence, table_step. rewrite match_fold, vocab_fold.
  cbn [fst snd]. split.
  - unfold spec_score, table_fires. rewrite occurrences_total.
    assert (sumZ ((λ e, once (any_in (lower (span_text s)) (snd e))
                          (if bool_decide (fst e ≠ "SOLVENT") then 3 else 2))
                    <$> VOCAB)
            = sumZ ((λ name, once (category_matches name s) 3)
                      <$> filter (λ name, name ≠ "SOLVENT") (fst <$> VOCAB))
              + once (category_matches "SOLVENT" s) 2) as ->.
    { unfold category_matches. generalize (any_in (lower (span_text s))).
      intros m. unfold sumZ, once. vm_compute.
      repeat (destruct (m _)); reflexivity. }
    unfold RULES, sumZ, once.
    destruct (looks_like_table (strip (span_text s))); cbn [fst fmap list_fmap foldr]; lia.
  - intros x. unfold spec_tags, table_fires.
    rewrite <- vocab_tags, <- rule_tags.
    destruct (looks_like_table (strip (span_text s))); cbn [snd].
    + rewrite !elem_of_union, elem_of_singleton, elem_of_empty. tauto.
    + rewrite !elem_of_union, elem_of_empty.
      split; [tauto|]. intros [H | [H | [_ H]]]; [tauto|tauto|done].
Qed.

(** ** Table heuristic *)

Lemma startswith_spec w t : startswith w t = true ↔ ∃ post, t = w ++ post.
Proof.
  revert t. induction w as [|a w IH]; intros t; simpl.
  - split; [by exists t|done].
  - destruct t as [|b t].
    + split; [done|]. by intros (post & ?).
    + rewrite andb_true_iff, bool_decide_eq_true, IH. split.
      * intros (-> & post & ->). by exists post.
      * intros (post & Heq). injection Heq as -> ->. split; [done|by exists post].
Qed.

Lemma contains_spec w t : contains w t = true ↔ occurs_in w t.
Proof.
  unfold occurs_in. induction t as [|b t IH]; simpl.
  - rewrite orb_false_r, startswith_spec. split.
    + intros (post & ->). by exists [], post.
    + intros (pre & post & Heq). symmetry in Heq.
      apply app_eq_nil in Heq as (-> & Heq). by exists post.
  - rewrite orb_true_iff, startswith_spec, IH. split.
    + intros [(post & ->) | (pre & post & ->)].
      * by exists [], post.
      * by exists (b :: pre), post.
    + intros (pre & post & Heq). destruct pre as [|c pre].
      * left. by exists post.
      * right. injection Heq as -> ->. by exists pre, post.
Qed.

Lemma contains_singleton c t : contains [c] t = true ↔ c ∈ t.
Proof.
  rewrite contains_spec. unfold occurs_in. split.
  - intros (pre & post & ->). apply elem_of_app. right. left.
  - intros (pre & post & ->)%list_elem_of_split. by exists pre, post.
Qed.

Lemma looks_like_table_spec t : looks_like_table t = true ↔ table_like t.
Proof.
  unfold looks_like_table, table_like, has_digit.
  rewrite andb_true_iff, orb_true_iff, existsb_exists, contains_spec.
  fold tab. rewrite contains_singleton.
  setoid_rewrite <- list_elem_of_In. done.
Qed.

Lemma text_score_no_table s : "TABLE" ∉ snd (text_score s).
Proof.
  unfold text_score. rewrite match_fold, vocab_fold. cbn [fst snd].
  rewrite !elem_of_union, vocab_tags, rule_tags, elem_of_empty.
  intros [[[] | [H _]] | [H _]]; revert H; compute_done.
Qed.

(** C4, as amended. The table heuristic tags the sentence TABLE and adds
    3 to its score if and only if the text of the sentence, stripped of
    leading and trailing white space, contains a digit and contains two
    consecutive spaces or a tab. *)
Theorem table_heuristic_on_stripped_text (s : Span) :
  ("TABLE" ∈ snd (score_sentence s) ↔ table_like (strip (span_text s)))
  ∧ (fst (score_sentence s) = fst (text_score s) + 3
     ↔ table_like (strip (span_text s)))
  ∧ (fst (score_sentence s) = fst (text_score s)
     ↔ ¬ table_like (strip (span_text s))).
Proof.
  rewrite <- looks_like_table_spec.
  change (score_sentence s) with (table_step (strip (span_text s)) (text_score s)).
  pose proof (text_score_no_table s) as Hno.
  unfold table_step.
  destruct (looks_like_table (strip (span_text s))); cbn [fst snd].
  - split_and!.
    + rewrite elem_of_union, elem_of_singleton. tauto.
    + tauto.
    + split; [lia|done].
  - split_and!.
    + split; [done|]. intros H. discriminate.
    + split; [lia|discriminate].
    + done.
Qed.

(** ** ASCII text *)

(** On ASCII text every database that obeys [unicode_laws] computes what
    [ascii_db] computes. *)

Lemma ascii_text_cons c t :
  ascii_text (c :: t) = true ↔ is_ascii c = true ∧ ascii_text t = true.
Proof. unfold ascii_text. simpl. apply andb_true_iff. Qed.

Lemma ascii_text_app t1 t2 :
  ascii_text (t1 ++ t2) = true ↔ ascii_text t1 = true ∧ ascii_text t2 = true.
Proof. unfold ascii_text. rewrite forallb_app. apply andb_true_iff. Qed.

Lemma ascii_text_rev t : ascii_text (rev t) = true ↔ ascii_text t = true.
Proof.
  induction t as [|c t IH]; [done|].
  change (rev (c :: t)) with (rev t ++ [c]).
  rewrite ascii_text_app, IH, !ascii_text_cons.
  split; [intros [? [? _]]|intros [? ?]]; done.
Qed.

Lemma ascii_text_elem t c : ascii_text t = true → c ∈ t → is_ascii c = true.
Proof.
  unfold ascii_text. rewrite forallb_forall. intros H Hc.
  by apply H, list_elem_of_In.
Qed.

Lemma ascii_text_str_lit : ascii_text HL_S = true ∧ ascii_text HL_E = true.
Proof. done. Qed.

Lemma ascii_text_lstrip t : ascii_text t = true → ascii_text (lstrip t) = true.
Proof.
  induction t as [|c t IH]; cbn [lstrip]; [done|].
  destruct (is_space c); [|done]. rewrite ascii_text_cons. intros [_ H]. auto.
Qed.

Lemma ascii_text_strip t : ascii_text t = true → ascii_text (strip t) = true.
Proof.
  intros H. unfold strip.
  by apply ascii_text_rev, ascii_text_lstrip, ascii_text_rev, ascii_text_lstrip.
Qed.

Lemma lstrip_ascii t :
  unicode_laws U → ascii_text t = true → lstrip t = @lstrip ascii_db t.
Proof.
  intros HU. induction t as [|c t IH]; cbn [lstrip]; [done|].
  rewrite ascii_text_cons. intros [Hc Ht].
  rewrite (is_space_ascii U HU c Hc).
  change (@is_space ascii_db c) with (ascii_space c).
  destruct (ascii_space c); auto.
Qed.

Lemma strip_ascii t :
  unicode_laws U → ascii_text t = true → strip t = @strip ascii_db t.
Proof.
  intros HU Ht. unfold strip.
  rewrite (lstrip_ascii (rev (lstrip t))), (lstrip_ascii t); try done.
  by apply ascii_text_rev, ascii_text_lstrip.
Qed.

Lemma existsb_ext_elem {A} (f g : A → bool) (l : list A) :
  (∀ x, x ∈ l → f x = g x) → existsb f l = existsb g l.
Proof.
  induction l as [|x l IH]; intros H; simpl; [done|].
  rewrite (H x) by left. f_equal. apply IH. intros y Hy. apply H. by right.
Qed.

Lemma looks_like_table_ascii t :
  unicode_laws U → ascii_text t = true →
  looks_like_table t = @looks_like_table ascii_db t.
Proof.
  intros HU Ht. unfold looks_like_table. f_equal.
  apply existsb_ext_elem. intros c Hc.
  apply (is_digit_ascii U HU), (ascii_text_elem t c Ht Hc).
Qed.

Lemma LOWER_ascii tok :
  unicode_laws U → ascii_text (TEXT tok) = true → LOWER tok = @LOWER ascii_db tok.
Proof. intros HU Ht. unfold LOWER. by apply (lower_ascii U HU). Qed.

Lemma spec_ok_ascii sp tok :
  unicode_laws U → ascii_text (TEXT tok) = true →
  spec_ok sp tok = @spec_ok ascii_db sp tok.
Proof.
  intros HU Ht. destruct sp; simpl; try done; by rewrite (LOWER_ascii tok HU Ht).
Qed.

Lemma pattern_at_ascii pat toks :
  unicode_laws U → forallb (λ tok, ascii_text (TEXT tok)) toks = true →
  pattern_at pat toks = @pattern_at ascii_db pat toks.
Proof.
  intros HU. revert toks.
  induction pat as [|sp pat IH]; intros [|tok toks]; simpl; try done.
  rewrite andb_true_iff. intros [Ht Hts].
  by rewrite (spec_ok_ascii sp tok HU Ht), IH.
Qed.

Lemma matcher_from_ascii i toks :
  unicode_laws U → forallb (λ tok, ascii_text (TEXT tok)) toks = true →
  matcher_from i toks = @matcher_from ascii_db i toks.
Proof.
  intros HU. revert i.
  induction toks as [|tok toks IH]; intros i Hts; [done|].
  cbn [matcher_from]. rewrite IH by (simpl in Hts; by apply andb_true_iff in Hts as [_ ?]).
  f_equal. unfold matches_at.
  apply flat_map_ext. intros rule. apply flat_map_ext. intros pat.
  by rewrite (pattern_at_ascii pat (tok :: toks) HU Hts).
Qed.

(** The scoring body on a sentence of ASCII characters. *)
Lemma score_sentence_ascii s :
  unicode_laws U → ascii_span s = true →
  score_sentence s = @score_sentence ascii_db s.
Proof.
  intros HU. unfold ascii_span. rewrite andb_true_iff. intros [Ht Hts].
  unfold score_sentence, matcher.
  rewrite (matcher_from_ascii 0 _ HU Hts), (lower_ascii U HU _ Ht).
  unfold table_step.
  rewrite (looks_like_table_ascii _ HU) by by apply ascii_text_strip.
  by rewrite (strip_ascii _ HU Ht).
Qed.

(** ** The scenario sentence *)

Lemma pore_sentence_score :
  unicode_laws U →
  score_sentence pore_sentence =
  (14, {["STATIONARY"; "CRITICAL"; "NUMERIC_RANGE"; "MEASUREMENT"]}).
Proof.
  intros HU. rewrite (score_sentence_ascii _ HU) by reflexivity.
  vm_compute. reflexivity.
Qed.

(** C9. For the text whose segmentation is the single sentence
    "The pore size was specified as 50-100 nm.", the merge yields one
    region; its tags are STATIONARY, CRITICAL, NUMERIC_RANGE and
    MEASUREMENT, its score is 14 = 3 + 3 + 4 + 4, and [analyze] files
    it under "CONFIRMED CRITICAL RANGES". *)
Theorem pore_size_scenario (kw_iter : list string)
    (nlp_sents : list char → list Span) :
  unicode_laws U →
  nlp_sents pore_text = [pore_sentence] →
  ∃ r,
    merge (collect_hits (nlp_sents pore_text)) = [r]
    ∧ ({["STATIONARY"; "CRITICAL"; "NUMERIC_RANGE"; "MEASUREMENT"]} : gset string)
        ⊆ tags r
    ∧ score r = 14
    ∧ score r = once (category_matches "STATIONARY" pore_sentence) 3
                + once (category_matches "CRITICAL" pore_sentence) 3
                + 4 * Z.of_nat (occurrences "NUMERIC_RANGE" pore_sentence)
                + 4 * Z.of_nat (occurrences "MEASUREMENT" pore_sentence)
    ∧ classify (tags r) = "CONFIRMED CRITICAL RANGES"
    ∧ analyze kw_iter nlp_sents pore_text =
      Some [("CONFIRMED CRITICAL RANGES",
             [(14, [highlight kw_iter pore_text])])].
Proof.
  intros HU Hseg.
  exists (mkHit 0 1 14 {["STATIONARY"; "CRITICAL"; "NUMERIC_RANGE"; "MEASUREMENT"]}).
  assert (merge (collect_hits [pore_sentence]) =
          [mkHit 0 1 14 {["STATIONARY"; "CRITICAL"; "NUMERIC_RANGE"; "MEASUREMENT"]}])
    as Hm.
  { unfold collect_hits, hits_from. rewrite (pore_sentence_score HU). reflexivity. }
  assert (strip pore_text = pore_text) as Hstrip.
  { rewrite (strip_ascii _ HU) by reflexivity. vm_compute. reflexivity. }
  unfold analyze. rewrite Hseg, Hm. cbn [tags score].
  split_and!.
  - reflexivity.
  - compute_done.
  - reflexivity.
  - unfold category_matches, occurrences, matcher.
    rewrite (lower_ascii U HU) by reflexivity.
    rewrite (matcher_from_ascii 0 _ HU) by reflexivity.
    vm_compute. reflexivity.
  - reflexivity.
  - unfold render_step, context_lines. cbn [foldl window_start window_end score tags].
    change (seqZ 0 (1 - 0)) with [0]. cbn [mapM].
    change (getitem [pore_sentence] 0) with (Some pore_sentence).
    cbn [mbind option_bind mret option_ret].
    change (span_text pore_sentence) with pore_text. rewrite Hstrip.
    reflexivity.
Qed.

(** ** Order independence of the merge *)

Lemma hit_eq (a b : Hit) :
  window_start a = window_start b → window_end a = window_end b →
  score a = score b → tags a = tags b → a = b.
Proof. destruct a, b; simpl; intros; by subst. Qed.

(** Two hits with the same window start may be swept in either order. *)
Lemma merge_step_swap acc h1 h2 :
  window_start h1 = window_start h2 → window_ok h1 → window_ok h2 →
  merge_step (merge_step acc h1) h2 = merge_step (merge_step acc h2) h1.
Proof.
  unfold window_ok. intros Hst H1 H2.
  assert (∀ init, merge_step (init ++ [h1]) h2 = merge_step (init ++ [h2]) h1)
    as Hfresh.
  { intros init. rewrite !merge_step_absorb by lia. f_equal. f_equal.
    apply hit_eq; simpl; [done|lia|lia|apply (comm_L (∪))]. }
  destruct acc as [|r init _] using rev_ind.
  { rewrite !merge_step_nil. apply (Hfresh []). }
  destruct (decide (window_end r < window_start h1)) as [Hnew | Habs].
  - rewrite !merge_step_new by lia.
    change [r; h1] with ([r] ++ [h1]). change [r; h2] with ([r] ++ [h2]).
    rewrite !app_assoc. apply Hfresh.
  - rewrite !(merge_step_absorb init r) by lia.
    rewrite !merge_step_absorb by (simpl; lia).
    f_equal. f_equal. apply hit_eq; simpl; [done|lia|lia|].
    rewrite <- !(assoc_L (∪)). f_equal. apply (comm_L (∪)).
Qed.

Lemma sweep_move_front h a acc :
  window_ok h →
  Forall (λ x, window_start x = window_start h ∧ window_ok x) a →
  foldl merge_step acc (a ++ [h]) = foldl merge_step (merge_step acc h) a.
Proof.
  intros Hh Ha. revert acc.
  induction Ha as [|x a [Hx1 Hx2] Ha IH]; intros acc; simpl; [done|].
  rewrite IH. f_equal. by apply merge_step_swap.
Qed.

Lemma sweep_perm_invariant l1 l2 acc :
  l1 ≡ₚ l2 → Forall window_ok l1 →
  StronglySorted starts_le l1 → StronglySorted starts_le l2 →
  foldl merge_step acc l1 = foldl merge_step acc l2.
Proof.
  revert l2 acc. induction l1 as [|h t1 IH]; intros l2 acc Hp Hok Hs1 Hs2.
  { apply Permutation_nil_l in Hp as ->. done. }
  apply Forall_cons in Hok as [Hh Hok].
  apply StronglySorted_cons in Hs1 as [Hmin Hs1].
  assert (h ∈ l2) as Hin by (rewrite <- Hp; left).
  apply list_elem_of_split in Hin as (a & b & ->).
  apply Permutation_cons_app_inv in Hp.
  assert (Forall (λ x, window_start x = window_start h ∧ window_ok x) a) as Ha.
  { apply Forall_forall. intros x Hx.
    assert (x ∈ t1) as Hxt by (rewrite Hp; apply elem_of_app; by left).
    rewrite Forall_forall in Hmin, Hok. split; [|by apply Hok].
    pose proof (Hmin x Hxt) as Hle1.
    pose proof (StronglySorted_app_1_elem_of _ _ _ x h Hs2 Hx) as Hle2.
    unfold starts_le in *. specialize (Hle2 ltac:(left)). lia. }
  assert (StronglySorted starts_le (a ++ b)) as Hs2'.
  { apply StronglySorted_app in Hs2 as (Hc & Hsa & Hsb).
    apply StronglySorted_cons in Hsb as [_ Hsb].
    apply StronglySorted_app. split_and!; [|done|done].
    intros x1 x2 Hx1 Hx2. apply Hc; [done|by right]. }
  change (h :: b) with ([h] ++ b). rewrite app_assoc, foldl_app.
  rewrite sweep_move_front by done. rewrite <- foldl_app. simpl.
  by apply IH.
Qed.

Lemma window_le_starts_le l :
  StronglySorted window_le l → StronglySorted starts_le l.
Proof.
  induction 1 as [|x l Hs IH Hx]; constructor; [done|].
  eapply Forall_impl; [exact Hx|]. intros y. unfold window_le, starts_le. lia.
Qed.

Lemma merge_perm (hits hits' : list Hit) :
  Forall window_ok hits → hits ≡ₚ hits' → merge hits' = merge hits.
Proof.
  intros Hok Hp. unfold merge, sweep. apply sweep_perm_invariant.
  - by rewrite !sorted_perm.
  - by rewrite sorted_perm, <- Hp.
  - apply window_le_starts_le, sorted_sorted.
  - apply window_le_starts_le, sorted_sorted.
Qed.


(** C6. The merge does not depend on the order of the hits: for hits with
    windows [start <= end], as the scoring loop builds them, the merge of
    any permutation of a list of hits is the merge of the list itself. *)
Theorem merge_order_independent (hits hits' : list Hit) :
  Forall window_ok hits → hits ≡ₚ hits' → merge hits' = merge hits.
Proof.
  intros Hok Hp. unfold merge, sweep.
  assert (sorted hits' ≡ₚ sorted hits) as Hps by (by rewrite !sorted_perm).
  assert (Forall window_ok (sorted hits')) as Hoks
    by (by rewrite sorted_perm, <- Hp).
  pose proof (window_le_starts_le _ (sorted_sorted hits)) as Hs.
  pose proof (window_le_starts_le _ (sorted_sorted hits')) as Hs'.
  exact (sweep_perm_invariant _ _ [] Hps Hoks Hs' Hs).
Qed.

Lemma collect_hits_window_ok sents : Forall window_ok (collect_hits sents).
Proof.
  eapply Forall_impl; [apply collect_hits_in_bounds|].
  intros h. unfold in_bounds, window_ok. lia.
Qed.

(** The hits of a document may be shuffled before the merge. *)
Lemma merge_collect_hits_perm sents hits' :
  collect_hits sents ≡ₚ hits' → merge hits' = merge (collect_hits sents).
Proof. apply merge_perm, collect_hits_window_ok. Qed.

(** ** Highlighter *)

Lemma ascii_word_is_ascii c : ascii_word c = true → is_ascii c = true.
Proof.
  unfold ascii_word, ascii_digit, ascii_upper, ascii_small, is_ascii.
  rewrite !orb_true_iff, !andb_true_iff, !N.leb_le, N.eqb_eq, N.ltb_lt. lia.
Qed.

Lemma kw_ok_inv k :
  kw_ok k = true →
  ∃ a b, head k = Some a ∧ last k = Some b
         ∧ ascii_word a = true ∧ ascii_word b = true.
Proof.
  unfold kw_ok. destruct (head k) as [a|]; [|done].
  destruct (last k) as [b|]; [|done].
  rewrite andb_true_iff. intros [Ha Hb]. by exists a, b.
Qed.

Lemma kw_ok_nonempty k : kw_ok k = true → (1 ≤ length k)%nat.
Proof. destruct k; [done|simpl; lia]. Qed.

(** A character that matches a word character of the ASCII range under
    IGNORECASE is a word character. *)
Lemma ci_match_ascii_word p c :
  unicode_laws U → ascii_word p = true → ci_match p c = true →
  is_word c = true.
Proof.
  intros HU Hp Hm. pose proof (ascii_word_is_ascii p Hp) as Ha.
  by rewrite (ci_match_word U HU p c Ha Hm), (is_word_ascii U HU p Ha).
Qed.

Lemma ci_prefix_length k t : ci_prefix k t = true → (length k ≤ length t)%nat.
Proof.
  revert t. induction k as [|p k IH]; intros [|c t]; simpl; try done; try lia.
  rewrite andb_true_iff. intros [_ H]. apply IH in H. lia.
Qed.

Lemma ci_prefix_app k m rest :
  ci_prefix k m = true → ci_prefix k (m ++ rest) = true.
Proof.
  revert m. induction k as [|p k IH]; intros [|c m]; simpl; try done.
  rewrite !andb_true_iff. intros [? ?]. auto.
Qed.

Lemma ci_prefix_take k t :
  ci_prefix k t = true → ci_prefix k (take (length k) t) = true.
Proof.
  revert t. induction k as [|p k IH]; intros [|c t]; simpl; try done.
  rewrite !andb_true_iff. intros [? ?]. auto.
Qed.

Lemma ci_prefix_head k t p :
  head k = Some p → ci_prefix k t = true →
  ∃ c, head t = Some c ∧ ci_match p c = true.
Proof.
  destruct k as [|p' k], t as [|c t]; simpl; try done.
  intros [= ->]. rewrite andb_true_iff. intros [? _]. by exists c.
Qed.

Lemma ci_prefix_last k t p :
  last k = Some p → ci_prefix k t = true →
  ∃ c, last (take (length k) t) = Some c ∧ ci_match p c = true.
Proof.
  revert t. induction k as [|p' k IH]; intros [|c t]; try done.
  cbn [ci_prefix length take]. rewrite andb_true_iff. intros Hl [Hm Hpre].
  destruct k as [|p'' k].
  - simpl in Hl. injection Hl as ->. exists c. split; [|done].
    by rewrite take_0.
  - rewrite last_cons_cons in Hl.
    destruct (IH t Hl Hpre) as (c' & Hc' & Hm'). exists c'. split; [|done].
    destruct t as [|c0 t]; [done|].
    cbn [length take] in *. by rewrite last_cons_cons.
Qed.

Lemma ci_equal_length k m : ci_equal k m = true → length m = length k.
Proof.
  unfold ci_equal. rewrite andb_true_iff, bool_decide_eq_true. tauto.
Qed.

Lemma head_take {A} (n : nat) (t : list A) :
  (1 ≤ n)%nat → head (take n t) = head t.
Proof. destruct n, t; simpl; try done; lia. Qed.

Lemma HL_length : length HL_S = 2%nat ∧ length HL_E = 2%nat.
Proof. done. Qed.

Ltac list_len :=
  repeat first [rewrite length_app | progress cbn [length]].

(** What a match of a keyword tells about its surroundings. *)
Lemma match_here_inv k prev t :
  unicode_laws U → kw_ok k = true → match_here k prev t = true →
  ci_equal k (take (length k) t) = true
  ∧ is_word_opt prev = false
  ∧ is_word_opt (head (drop (length k) t)) = false.
Proof.
  intros HU (a & b & Hh & Hl & Ha & Hb)%kw_ok_inv.
  unfold match_here. rewrite !andb_true_iff.
  intros ((Hb1 & Hpre) & Hb2).
  destruct (ci_prefix_head k t a Hh Hpre) as (c & Hc & Hmc).
  destruct (ci_prefix_last k t b Hl Hpre) as (d & Hd & Hmd).
  pose proof (ci_match_ascii_word a c HU Ha Hmc) as Hwc.
  pose proof (ci_match_ascii_word b d HU Hb Hmd) as Hwd.
  unfold boundary in Hb1, Hb2. rewrite Hc in Hb1. rewrite Hd in Hb2.
  cbn [is_word_opt] in Hb1, Hb2. rewrite Hwc in Hb1. rewrite Hwd in Hb2.
  split_and!.
  - unfold ci_equal. rewrite (ci_prefix_take k t Hpre), bool_decide_eq_true_2; [done|].
    apply ci_prefix_length in Hpre. rewrite length_take. lia.
  - by destruct (is_word_opt prev).
  - by destruct (is_word_opt (head (drop (length k) t))).
Qed.

Lemma wrapped_refl k prev t : wrapped k prev t t.
Proof. revert prev. induction t; intros prev; by constructor. Qed.

(** One pass only wraps whole-word occurrences of its keyword. *)
Lemma re_sub_from_wrapped fuel k prev t :
  unicode_laws U → kw_ok k = true →
  wrapped k prev t (re_sub_from fuel k prev t).
Proof.
  intros HU Hk. revert prev t.
  induction fuel as [|f IH]; intros prev [|c t']; simpl;
    try apply wrapped_nil; try apply wrapped_refl.
  change (c :: t') with ([c] ++ t') at 1.
  destruct (match_here k prev (c :: t')) eqn:Hm.
  - apply (match_here_inv k prev _ HU Hk) in Hm as (Hlow & Hp & Hn).
    simpl. rewrite <- (take_drop (length k) (c :: t')) at 1.
    by apply wrapped_mark.
  - apply wrapped_copy, IH.
Qed.

Lemma re_sub_from_length_ge fuel k prev t :
  (length t ≤ length (re_sub_from fuel k prev t))%nat.
Proof.
  revert prev t. induction fuel as [|f IH]; intros prev [|c t']; simpl; try lia.
  destruct (match_here k prev (c :: t')).
  - pose proof (IH (last (take (length k) (c :: t'))) (drop (length k) (c :: t'))).
    pose proof (take_drop (length k) (c :: t')) as Htd.
    apply (f_equal length) in Htd. rewrite length_app in Htd.
    list_len. cbn [length] in Htd. lia.
  - pose proof (IH (Some c) t'). list_len. lia.
Qed.

(** A scan that finds a match makes the text longer by the four marker
    characters at least. *)
Lemma re_sub_from_match_longer f k prev t :
  match_here k prev t = true → (1 ≤ length k)%nat →
  (length t + 4 ≤ length (re_sub_from (S f) k prev t))%nat.
Proof.
  intros Hm Hk. destruct t as [|c t'].
  { unfold match_here in Hm. rewrite !andb_true_iff in Hm.
    destruct Hm as ((_ & Hlen) & _). apply ci_prefix_length in Hlen.
    simpl in Hlen. lia. }
  cbn [re_sub_from]. rewrite Hm.
  pose proof (re_sub_from_length_ge f k (last (take (length k) (c :: t')))
                (drop (length k) (c :: t'))).
  pose proof (take_drop (length k) (c :: t')) as Htd.
  apply (f_equal length) in Htd. rewrite length_app in Htd.
  list_len. destruct HL_length as [-> ->]. cbn [length] in Htd. lia.
Qed.

Lemma re_sub_from_same_length fuel k prev t :
  (1 ≤ length k)%nat →
  length (re_sub_from fuel k prev t) = length t →
  re_sub_from fuel k prev t = t.
Proof.
  intros Hk. revert prev t.
  induction fuel as [|f IH]; intros prev [|c t'] Hlen; try done.
  destruct (match_here k prev (c :: t')) eqn:Hm.
  - pose proof (re_sub_from_match_longer f k prev _ Hm Hk). lia.
  - simpl in *. rewrite Hm in *. simpl in Hlen. f_equal. apply IH. lia.
Qed.

(** The scan consumes a character at each step: any fuel that covers the
    length of the text gives the same result. *)
Lemma re_sub_from_enough_fuel f1 f2 k prev t :
  (1 ≤ length k)%nat → (length t ≤ f1)%nat → (length t ≤ f2)%nat →
  re_sub_from f1 k prev t = re_sub_from f2 k prev t.
Proof.
  intros Hk. revert f2 prev t.
  induction f1 as [|f1 IH]; intros [|f2] prev [|c t'] H1 H2;
    cbn [length] in *; try done; try lia.
  cbn [re_sub_from]. destruct (match_here k prev (c :: t')).
  - do 3 f_equal. apply IH; rewrite length_drop; cbn [length]; lia.
  - f_equal. apply IH; lia.
Qed.

Lemma prev_after_cons prev c pre :
  prev_after prev (c :: pre) = prev_after (Some c) pre.
Proof.
  unfold prev_after. destruct pre as [|c' pre]; [done|].
  rewrite last_cons_cons. destruct (last (c' :: pre)) eqn:Hl; [done|].
  by apply last_None in Hl.
Qed.

(** A match anywhere in the text is found by the scan or preceded by
    another one: the text gets longer. *)
Lemma re_sub_from_finds_match k pre rest f prev :
  (1 ≤ length k)%nat → (length (pre ++ rest) ≤ f)%nat →
  match_here k (prev_after prev pre) rest = true →
  (length (pre ++ rest) < length (re_sub_from f k prev (pre ++ rest)))%nat.
Proof.
  intros Hk. revert f prev.
  induction pre as [|c pre IH]; intros f prev Hf Hm.
  - simpl in *. destruct f as [|f].
    + destruct rest; [|simpl in Hf; lia].
      unfold match_here in Hm. rewrite !andb_true_iff in Hm.
      destruct Hm as ((_ & Hlen) & _). apply ci_prefix_length in Hlen.
      simpl in Hlen. lia.
    + pose proof (re_sub_from_match_longer f k prev rest Hm Hk). lia.
  - destruct f as [|f]; [simpl in Hf; lia|].
    destruct (match_here k prev ((c :: pre) ++ rest)) eqn:Hm0.
    + pose proof (re_sub_from_match_longer f k prev _ Hm0 Hk). lia.
    + simpl in *. rewrite Hm0. simpl.
      rewrite prev_after_cons in Hm.
      specialize (IH f (Some c) ltac:(lia) Hm). lia.
Qed.

(** The output of a pass that changed the text shows a marked keyword. *)
Lemma re_sub_from_changed fuel k prev t :
  re_sub_from fuel k prev t ≠ t →
  ∃ p m r,
    re_sub_from fuel k prev t = p ++ HL_S ++ m ++ HL_E ++ r
    ∧ ci_equal k m = true.
Proof.
  revert prev t. induction fuel as [|f IH]; intros prev [|c t'] Hne; try done.
  simpl in *. destruct (match_here k prev (c :: t')) eqn:Hm.
  - exists [], (take (length k) (c :: t')), (re_sub_from f k
      (last (take (length k) (c :: t'))) (drop (length k) (c :: t'))).
    split; [done|].
    unfold match_here in Hm. rewrite !andb_true_iff in Hm.
    destruct Hm as ((_ & Hpre) & _).
    unfold ci_equal. rewrite (ci_prefix_take _ _ Hpre), bool_decide_eq_true_2; [done|].
    apply ci_prefix_length in Hpre. rewrite length_take. lia.
  - destruct (IH (Some c) t') as (p & m & r & Heq & Hlow); [congruence|].
    exists (c :: p), m, r. split; [|done]. simpl. by rewrite Heq.
Qed.

(** A pass over its own output finds the keyword it marked: the text
    grows again. *)
Lemma re_sub_rematch k t :
  unicode_laws U → kw_ok k = true → re_sub k t ≠ t →
  (length (re_sub k t) < length (re_sub k (re_sub k t)))%nat.
Proof.
  intros HU Hk Hne. pose proof (kw_ok_nonempty k Hk) as Hk1.
  destruct (re_sub_from_changed _ _ _ _ Hne) as (p & m & r & Heq & Hci).
  fold (re_sub k t) in Heq. unfold re_sub at 2.
  generalize (Nat.le_refl (length (re_sub k t))).
  generalize (length (re_sub k t)) at 2 4. intros f Hf.
  rewrite Heq in *. clear Heq Hne.
  rewrite (app_assoc p HL_S) in *.
  apply re_sub_from_finds_match; [done|done|].
  assert (prev_after None (p ++ HL_S) = Some 91%N) as ->.
  { unfold prev_after.
    change HL_S with ([91%N] ++ [91%N]).
    by rewrite app_assoc, last_snoc. }
  pose proof (ci_equal_length _ _ Hci) as Hlen.
  unfold ci_equal in Hci. apply andb_true_iff in Hci as [Hpre _].
  destruct (kw_ok_inv k Hk) as (a & b & Hh & Hl & Ha & Hb).
  destruct (ci_prefix_head k m a Hh Hpre) as (c & Hc & Hmc).
  destruct (ci_prefix_last k m b Hl Hpre) as (d & Hd & Hmd).
  rewrite <- Hlen, firstn_all in Hd.
  pose proof (ci_match_ascii_word a c HU Ha Hmc) as Hwc.
  pose proof (ci_match_ascii_word b d HU Hb Hmd) as Hwd.
  assert (is_word 91%N = false) as H91
    by (by rewrite (is_word_ascii U HU)).
  assert (is_word 93%N = false) as H93
    by (by rewrite (is_word_ascii U HU)).
  unfold match_here.
  rewrite (take_app_length' m _ (length k)) by done.
  rewrite (drop_app_length' m _ (length k)) by done.
  rewrite (ci_prefix_app k m _ Hpre).
  unfold boundary. rewrite Hd.
  destruct m as [|c' m]; [done|]. simpl in Hc. injection Hc as ->.
  change (head ((c :: m) ++ HL_E ++ r)) with (Some c).
  change (head (HL_E ++ r)) with (Some 93%N).
  cbn [is_word_opt]. by rewrite Hwc, Hwd, H91, H93.
Qed.

Lemma insort_len_perm k l : insort_len k l ≡ₚ k :: l.
Proof.
  induction l as [|y l IH]; simpl; [done|].
  destruct (String.length y <? String.length k)%nat; [done|].
  rewrite IH. apply Permutation_swap.
Qed.

Lemma sorted_by_len_desc_perm ks : sorted_by_len_desc ks ≡ₚ ks.
Proof.
  unfold sorted_by_len_desc.
  assert (∀ acc, foldl (λ acc k, insort_len k acc) acc ks ≡ₚ acc ++ ks) as H.
  { induction ks as [|k ks IH]; intros acc; simpl.
    - by rewrite app_nil_r.
    - rewrite IH, insort_len_perm. simpl. apply Permutation_middle. }
  apply H.
Qed.

Lemma insort_len_sorted k l :
  StronglySorted longer_first l → StronglySorted longer_first (insort_len k l).
Proof.
  induction l as [|y l IH]; simpl; intros Hs.
  - repeat constructor.
  - apply StronglySorted_cons in Hs as [Hy Hl].
    destruct (String.length y <? String.length k)%nat eqn:Hlt.
    + apply Nat.ltb_lt in Hlt.
      apply StronglySorted_cons. split; [|by apply StronglySorted_cons].
      constructor; [unfold longer_first; lia|].
      eapply Forall_impl; [exact Hy|]. intros z. unfold longer_first. lia.
    + apply Nat.ltb_ge in Hlt.
      apply StronglySorted_cons. split; [|by apply IH].
      rewrite insort_len_perm. by constructor.
Qed.

Lemma sorted_by_len_desc_sorted ks :
  StronglySorted longer_first (sorted_by_len_desc ks).
Proof.
  unfold sorted_by_len_desc.
  assert (∀ acc, StronglySorted longer_first acc →
            StronglySorted longer_first
              (foldl (λ acc k, insort_len k acc) acc ks)) as H.
  { induction ks as [|k ks IH]; intros acc Hacc; simpl; [done|].
    apply IH. by apply insort_len_sorted. }
  apply H. constructor.
Qed.

Lemma all_keywords_ok k : k ∈ ALL_KEYWORDS → kw_ok (str k) = true.
Proof.
  revert k. change (set_Forall (λ k, kw_ok (str k) = true) ALL_KEYWORDS).
  compute_done.
Qed.

Lemma sorted_keywords_ok kw_iter k :
  kw_iter ≡ₚ elements ALL_KEYWORDS →
  k ∈ sorted_by_len_desc kw_iter → kw_ok (str k) = true.
Proof.
  intros Hp Hk. apply all_keywords_ok, elem_of_elements.
  by rewrite <- Hp, <- sorted_by_len_desc_perm.
Qed.

Section Passes.
Hypothesis HU : unicode_laws U.
Variable ks : list string.
Hypothesis ks_ok : ∀ k, k ∈ ks → kw_ok (str k) = true.

Local Abbreviation run := (foldl (λ t k, re_sub (str k) t)).

Lemma run_wrapped t : highlight_passes ks t (run t ks).
Proof.
  revert t. induction ks as [|k ks' IH]; intros t; simpl; [constructor|].
  econstructor.
  - apply re_sub_from_wrapped; [done|]. apply ks_ok. left.
  - apply IH. intros k' Hk'. apply ks_ok. by right.
Qed.

Lemma run_length_ge (l : list string) t : (length t ≤ length (run t l))%nat.
Proof.
  revert t. induction l as [|k l IH]; intros t; simpl; [done|].
  etrans; [|apply IH]. apply re_sub_from_length_ge.
Qed.

Lemma re_sub_changed_longer k t :
  kw_ok (str k) = true → re_sub (str k) t ≠ t →
  (length t < length (re_sub (str k) t))%nat.
Proof.
  intros Hk Hne.
  pose proof (re_sub_from_length_ge (length t) (str k) None t) as Hge.
  fold (re_sub (str k) t) in Hge.
  destruct (decide (length (re_sub (str k) t) = length t)) as [Heq|]; [|lia].
  destruct Hne. apply re_sub_from_same_length; [|done].
  by apply kw_ok_nonempty.
Qed.

(** A keyword with an occurrence makes the whole run longer. *)
Lemma run_longer k t :
  k ∈ ks → (length t < length (re_sub (str k) t))%nat →
  (length t < length (run t ks))%nat.
Proof.
  revert t. induction ks as [|k0 ks' IH]; intros t Hk Hlen.
  { by apply elem_of_nil in Hk. }
  simpl. destruct (decide (re_sub (str k0) t = t)) as [Heq | Hne].
  - rewrite Heq. apply elem_of_cons in Hk as [-> | Hk].
    + rewrite Heq in Hlen. lia.
    + apply IH; [|done|done]. intros k' Hk'. apply ks_ok. by right.
  - eapply Nat.lt_le_trans; [|apply run_length_ge].
    apply re_sub_changed_longer; [|done]. apply ks_ok. left.
Qed.

(** The output of a run that changed the text holds an occurrence of
    one of the keywords. *)
Lemma run_changed t :
  run t ks ≠ t →
  ∃ k, k ∈ ks
       ∧ (length (run t ks) < length (re_sub (str k) (run t ks)))%nat.
Proof.
  revert ks_ok. induction ks as [|k ks' IH] using rev_ind; intros Hok Hne.
  { done. }
  rewrite foldl_snoc in *.
  destruct (decide (re_sub (str k) (run t ks') = run t ks')) as [Heq | Hne'].
  - rewrite Heq in *. destruct IH as (k' & Hk' & Hlen); [|done|].
    + intros k' Hk'. apply Hok, elem_of_app. by left.
    + exists k'. split; [apply elem_of_app; by left|done].
  - exists k. split; [apply elem_of_app; right; left|].
    apply re_sub_rematch; [done| |done]. apply Hok, elem_of_app. right. left.
Qed.

Lemma run_idempotent_iff t :
  run (run t ks) ks = run t ks ↔ run t ks = t.
Proof.
  split; [|intros H; by rewrite !H].
  intros Hid. destruct (decide (run t ks = t)) as [|Hne]; [done|].
  destruct (run_changed t Hne) as (k & Hk & Hlen).
  pose proof (run_longer k _ Hk Hlen) as Hlt. rewrite Hid in Hlt. lia.
Qed.

End Passes.

(** *** The highlighter on ASCII text *)

Lemma ascii_text_subseteq t u :
  u ⊆ t → ascii_text t = true → ascii_text u = true.
Proof.
  intros Hsub Ht. unfold ascii_text. apply forallb_forall. intros c Hc.
  apply (ascii_text_elem t c Ht), Hsub. by apply list_elem_of_In.
Qed.

Lemma ci_prefix_ascii k t :
  unicode_laws U → ascii_text k = true → ascii_text t = true →
  ci_prefix k t = @ci_prefix ascii_db k t.
Proof.
  intros HU. revert t. induction k as [|p k IH]; intros [|c t]; try done.
  rewrite !ascii_text_cons. intros [Hp Hk] [Hc Ht].
  cbn [ci_prefix]. by rewrite (ci_match_ascii U HU p c Hp Hc), IH.
Qed.

Lemma is_word_opt_ascii o :
  unicode_laws U → (∀ c, o = Some c → is_ascii c = true) →
  is_word_opt o = @is_word_opt ascii_db o.
Proof.
  intros HU H. destruct o as [c|]; [|done]. simpl.
  by apply (is_word_ascii U HU), H.
Qed.

Lemma match_here_ascii k prev t :
  unicode_laws U → ascii_text k = true →
  (∀ c, prev = Some c → is_ascii c = true) → ascii_text t = true →
  match_here k prev t = @match_here ascii_db k prev t.
Proof.
  intros HU Hk Hprev Ht. unfold match_here, boundary.
  rewrite (ci_prefix_ascii k t HU Hk Ht).
  rewrite (is_word_opt_ascii prev HU Hprev).
  rewrite !(is_word_opt_ascii (head _) HU), (is_word_opt_ascii (last _) HU); [done|..].
  - intros c Hc%last_Some_elem_of.
    apply (ascii_text_elem t c Ht), (subseteq_take (length k)), Hc.
  - intros c Hc%head_Some_elem_of.
    apply (ascii_text_elem t c Ht), (subseteq_drop (length k)), Hc.
  - intros c Hc%head_Some_elem_of. apply (ascii_text_elem t c Ht), Hc.
Qed.

(** A pass over an ASCII text gives an ASCII text. *)
Lemma ascii_text_re_sub_from fuel k prev t :
  ascii_text t = true → ascii_text (re_sub_from fuel k prev t) = true.
Proof.
  revert prev t. induction fuel as [|f IH]; intros prev [|c t'] Ht; try done.
  cbn [re_sub_from]. destruct (match_here k prev (c :: t')).
  - rewrite !ascii_text_app. split_and!; try done.
    + by apply (ascii_text_subseteq _ _ (subseteq_take _ _)).
    + by apply IH, (ascii_text_subseteq _ _ (subseteq_drop _ _)).
  - apply ascii_text_cons in Ht as [Hc Ht]. apply ascii_text_cons. auto.
Qed.

Lemma re_sub_from_ascii fuel k prev t :
  unicode_laws U → ascii_text k = true →
  (∀ c, prev = Some c → is_ascii c = true) → ascii_text t = true →
  re_sub_from fuel k prev t = @re_sub_from ascii_db fuel k prev t.
Proof.
  intros HU Hk. revert prev t.
  induction fuel as [|f IH]; intros prev [|c t'] Hprev Ht; try done.
  cbn [re_sub_from]. rewrite (match_here_ascii k prev _ HU Hk Hprev Ht).
  destruct (@match_here ascii_db k prev (c :: t')).
  - do 3 f_equal. apply IH.
    + intros d Hd%last_Some_elem_of.
      apply (ascii_text_elem _ d Ht), (subseteq_take (length k)), Hd.
    + by apply (ascii_text_subseteq _ _ (subseteq_drop _ _)).
  - apply ascii_text_cons in Ht as [Hc Ht]. f_equal. apply IH; [|done].
    by intros d [= <-].
Qed.

(** [highlight] with ASCII keywords on an ASCII text. *)
Lemma highlight_ascii (kw_iter : list string) t :
  unicode_laws U → Forall (λ k, ascii_text (str k) = true) kw_iter →
  ascii_text t = true →
  highlight kw_iter t = @highlight ascii_db kw_iter t.
Proof.
  intros HU Hks. unfold highlight.
  rewrite <- (sorted_by_len_desc_perm kw_iter) in Hks.
  revert t. induction Hks as [|k ks Hk Hks IH]; intros t Ht; [done|].
  cbn [foldl]. unfold re_sub at 2 4.
  rewrite <- (re_sub_from_ascii (length t) (str k) None t HU Hk); [|done|done].
  apply IH. by apply ascii_text_re_sub_from.
Qed.

(** C5, as amended. With the keywords taken longest first, every pass of
    [highlight] wraps only whole-word occurrences of its keyword, matched
    up to case: no wrapped span has a word character right before or right
    behind it. [highlight] is not idempotent on marked text: applying it
    to its own output gives that output back exactly when the first
    application left the text unchanged. *)
Theorem highlight_whole_words (kw_iter : list string) (t : list char) :
  unicode_laws U →
  kw_iter ≡ₚ elements ALL_KEYWORDS →
  sorted_by_len_desc kw_iter ≡ₚ kw_iter
  ∧ StronglySorted longer_first (sorted_by_len_desc kw_iter)
  ∧ highlight_passes (sorted_by_len_desc kw_iter) t (highlight kw_iter t)
  ∧ (highlight kw_iter (highlight kw_iter t) = highlight kw_iter t
     ↔ highlight kw_iter t = t).
Proof.
  intros HU Hp.
  pose proof (λ k, sorted_keywords_ok kw_iter k Hp) as Hok.
  split_and!.
  - apply sorted_by_len_desc_perm.
  - apply sorted_by_len_desc_sorted.
  - by apply run_wrapped.
  - by apply run_idempotent_iff.
Qed.

(** * Further properties of the pipeline *)

(** ** Scores and tags of a sentence *)

Lemma score_consistent_add (st : Z * gset string) (d : Z) (x : string) :
  2 ≤ d → score_consistent st → score_consistent (fst st + d, snd st ∪ {[x]}).
Proof.
  unfold score_consistent. intros Hd (H0 & Hz & H2). cbn [fst snd].
  split_and!; [lia| |lia].
  split; [lia|]. intros He. exfalso.
  assert (x ∈ snd st ∪ {[x]}) as Hx
    by (apply elem_of_union; right; by apply elem_of_singleton).
  rewrite He in Hx. by apply elem_of_empty in Hx.
Qed.

Lemma vocab_step_consistent tl st e :
  score_consistent st → score_consistent (vocab_step tl st e).
Proof.
  intros H. unfold vocab_step. destruct (any_in tl (snd e)); [|done].
  apply score_consistent_add; [|done]. case_bool_decide; lia.
Qed.

Lemma match_step_consistent st m :
  score_consistent st → score_consistent (match_step st m).
Proof. intros H. unfold match_step. by apply score_consistent_add. Qed.

Lemma table_step_consistent t st :
  score_consistent st → score_consistent (table_step t st).
Proof.
  intros H. unfold table_step. destruct (looks_like_table t); [|done].
  by apply score_consistent_add.
Qed.

Lemma foldl_invariant {A B} (P : A → Prop) (f : A → B → A) (l : list B) a :
  (∀ a b, P a → P (f a b)) → P a → P (foldl f a l).
Proof.
  intros Hf. revert a. induction l as [|b l IH]; intros a Ha; simpl; [done|].
  by apply IH, Hf.
Qed.

(** X1. A sentence has score 0 exactly when it has no tag; a score is
    never negative, and a score that is not 0 is at least 2. So the
    sentences that become hits are those with at least one tag. *)
Theorem score_zero_iff_no_tags (s : Span) :
  0 ≤ fst (score_sentence s)
  ∧ (fst (score_sentence s) = 0 ↔ snd (score_sentence s) = ∅)
  ∧ (fst (score_sentence s) ≠ 0 → 2 ≤ fst (score_sentence s)).
Proof.
  change (score_consistent (score_sentence s)).
  unfold score_sentence. apply table_step_consistent.
  apply foldl_invariant; [intros a b; apply match_step_consistent|].
  apply foldl_invariant; [intros a b; apply vocab_step_consistent|].
  unfold score_consistent; cbn [fst snd]. split_and!; [lia|done|lia].
Qed.

(** ** The token-pattern matcher *)

Lemma pattern_at_length pat toks :
  pattern_at pat toks = true → (length pat ≤ length toks)%nat.
Proof.
  revert toks. induction pat as [|sp pat IH]; intros [|tok toks]; simpl;
    try done; try lia.
  rewrite andb_true_iff. intros [_ H]. apply IH in H. lia.
Qed.

Lemma matches_at_elem i toks m :
  m ∈ matches_at i toks →
  ∃ rule pat, rule ∈ PATTERNS ∧ pat ∈ snd rule ∧ pattern_at pat toks = true
              ∧ m = (fst rule, i, (i + length pat)%nat).
Proof.
  unfold matches_at. rewrite list_elem_of_In, in_flat_map.
  intros (rule & Hrule & Hm). apply in_flat_map in Hm as (pat & Hpat & Hm).
  exists rule, pat. rewrite !list_elem_of_In.
  destruct (pattern_at pat toks); [|destruct Hm].
  destruct Hm as [<- | []]. done.
Qed.

Lemma matcher_from_elem i toks m :
  m ∈ matcher_from i toks →
  ∃ (j : nat) rule pat,
    rule ∈ PATTERNS ∧ pat ∈ snd rule ∧ pattern_at pat (drop j toks) = true
    ∧ (j < length toks)%nat
    ∧ m = (fst rule, (i + j)%nat, (i + j + length pat)%nat).
Proof.
  revert i. induction toks as [|tok toks IH]; intros i; simpl.
  { intros H. by apply elem_of_nil in H. }
  rewrite elem_of_app. intros [H | H].
  - apply matches_at_elem in H as (rule & pat & Hr & Hp & Hm & ->).
    exists 0%nat, rule, pat. rewrite Nat.add_0_r. split_and!; try done. lia.
  - apply IH in H as (j & rule & pat & Hr & Hp & Hm & Hj & ->).
    exists (S j), rule, pat. split_and!; try done; [lia|].
    f_equal; [f_equal|]; lia.
Qed.

Lemma pattern_lengths rule pat :
  rule ∈ PATTERNS → pat ∈ snd rule → (2 ≤ length pat ≤ 4)%nat.
Proof.
  unfold PATTERNS. rewrite !elem_of_cons, elem_of_nil.
  intros [-> | [-> | [-> | []]]]; cbn [snd];
    rewrite !elem_of_cons, elem_of_nil; intros H;
    repeat (destruct H as [-> | H]; [simpl; lia|]); destruct H.
Qed.

Lemma pattern_at_lookup pat toks (k : nat) sp :
  pat !! k = Some sp → pattern_at pat toks = true →
  ∃ tok, toks !! k = Some tok ∧ spec_ok sp tok = true.
Proof.
  revert toks k. induction pat as [|sp0 pat IH]; intros [|tok toks] k;
    simpl; try done.
  rewrite andb_true_iff. intros Hk [H0 Hrest]. destruct k as [|k]; simpl in *.
  - injection Hk as ->. by exists tok.
  - by apply IH.
Qed.

Lemma pattern_number_place rule pat :
  rule ∈ PATTERNS → pat ∈ snd rule →
  pat !! 0%nat = Some (LikeNum true) ∨ pat !! 1%nat = Some (LikeNum true).
Proof.
  unfold PATTERNS. rewrite !elem_of_cons, elem_of_nil.
  intros [-> | [-> | [-> | []]]]; cbn [snd];
    rewrite !elem_of_cons, elem_of_nil; intros H;
    repeat (destruct H as [-> | H]; [(by left) || (by right)|]); destruct H.
Qed.

(** Every pattern asks for a number-like token at its first or second
    place. *)
Lemma pattern_needs_number rule pat toks :
  rule ∈ PATTERNS → pat ∈ snd rule → pattern_at pat toks = true →
  ∃ tok, tok ∈ take 2 toks ∧ LIKE_NUM tok = true.
Proof.
  intros Hr Hp Hm.
  destruct (pattern_number_place _ _ Hr Hp) as [Hk | Hk];
    destruct (pattern_at_lookup _ _ _ _ Hk Hm) as (tok & Htok & Hok);
    exists tok; simpl in Hok; apply bool_decide_eq_true in Hok;
    (split; [|done]); apply list_elem_of_lookup.
  - exists 0%nat. by rewrite lookup_take_lt by lia.
  - exists 1%nat. by rewrite lookup_take_lt by lia.
Qed.

(** X2. Every match reported for a sentence carries the name of one of
    the three rules, spans two to four tokens of the sentence, and has a
    number-like token at its first or second place. *)
Theorem matcher_spans (s : Span) (key : string) (i j : nat) :
  (key, i, j) ∈ matcher s →
  key ∈ RULES
  ∧ (i < j ≤ length (span_tokens s))%nat
  ∧ (2 ≤ j - i ≤ 4)%nat
  ∧ ∃ tok, tok ∈ take 2 (drop i (span_tokens s)) ∧ LIKE_NUM tok = true.
Proof.
  intros Hm. pose proof Hm as Hk.
  pose proof (matcher_keys s) as Hkeys. rewrite Forall_forall in Hkeys.
  apply Hkeys in Hk. cbn [fst] in Hk.
  unfold matcher in Hm.
  apply matcher_from_elem in Hm as (j0 & rule & pat & Hr & Hp & Hpat & Hj & Heq).
  injection Heq as -> -> ->. cbn [Nat.add].
  pose proof (pattern_lengths _ _ Hr Hp) as Hlen.
  pose proof (pattern_at_length _ _ Hpat) as Hfit. rewrite length_drop in Hfit.
  split_and!; try done; try lia.
  by eapply pattern_needs_number.
Qed.

(** X3. A sentence without a number-like token has no pattern match. *)
Theorem matcher_needs_number (s : Span) :
  Forall (λ tok, LIKE_NUM tok = false) (span_tokens s) → matcher s = [].
Proof.
  intros Hno. apply elem_of_nil_inv. intros [[key i] j] Hm.
  unfold matcher in Hm.
  apply matcher_from_elem in Hm as (j0 & rule & pat & Hr & Hp & Hpat & _ & _).
  destruct (pattern_needs_number _ _ _ Hr Hp Hpat) as (tok & Htok & Hnum).
  rewrite Forall_forall in Hno.
  assert (tok ∈ span_tokens s) as Hin.
  { by apply (subseteq_drop j0), (subseteq_take 2). }
  rewrite (Hno _ Hin) in Hnum. done.
Qed.

(** ** What the merge keeps of the hits *)

Lemma within_refl h : within h h.
Proof. unfold within. lia. Qed.

Lemma absorbs_refl h : absorbs h h.
Proof. unfold absorbs. split_and!; [apply within_refl|done|lia]. Qed.

Lemma explained_self hs h : h ∈ hs → explained hs h.
Proof.
  intros Hh. unfold explained. split_and!;
    try intros x Hx; exists h; split_and!; done || apply within_refl.
Qed.

Lemma explained_mono hs hs' r : hs ⊆ hs' → explained hs r → explained hs' r.
Proof.
  intros Hsub (Hs & He & Hsc & Ht). unfold explained. split_and!.
  - destruct Hs as (h & ? & ? & ?). exists h. split_and!; [by apply Hsub|done|done].
  - destruct He as (h & ? & ? & ?). exists h. split_and!; [by apply Hsub|done|done].
  - destruct Hsc as (h & ? & ? & ?). exists h. split_and!; [by apply Hsub|done|done].
  - intros x Hx. destruct (Ht x Hx) as (h & ? & ? & ?).
    exists h. split_and!; [by apply Hsub|done|done].
Qed.

(** The region that replaces [r] when the hit [h] is merged into it. *)
Lemma explained_absorb seen r h :
  explained seen r → window_start r ≤ window_start h →
  explained (seen ++ [h])
    (mkHit (window_start r) (Z.max (window_end r) (window_end h))
           (Z.max (score r) (score h)) (tags r ∪ tags h)).
Proof.
  intros (Hs & He & Hsc & Ht) Hle.
  assert (h ∈ seen ++ [h]) as Hh by (apply elem_of_app; right; left).
  assert (∀ h0, h0 ∈ seen → h0 ∈ seen ++ [h]) as Hsub
    by (intros h0 ?; apply elem_of_app; by left).
  unfold explained, within in *; cbn [window_start window_end score tags].
  split_and!.
  - destruct Hs as (h0 & ? & ? & ?). exists h0. split_and!; [by apply Hsub|lia|lia|done].
  - destruct (decide (window_end h ≤ window_end r)).
    + destruct He as (h0 & ? & ? & ?). exists h0.
      split_and!; [by apply Hsub|lia|lia|lia].
    + exists h. split_and!; [done|lia|lia|lia].
  - destruct (decide (score h ≤ score r)).
    + destruct Hsc as (h0 & ? & ? & ?). exists h0.
      split_and!; [by apply Hsub|lia|lia|lia].
    + exists h. split_and!; [done|lia|lia|lia].
  - intros x [Hx | Hx]%elem_of_union.
    + destruct (Ht x Hx) as (h0 & ? & ? & ?). exists h0.
      split_and!; [by apply Hsub|lia|lia|done].
    + exists h. split_and!; [done|lia|lia|done].
Qed.

Lemma merge_step_sweep_inv seen merged h :
  (∀ h', h' ∈ seen → window_start h' ≤ window_start h) →
  sweep_inv seen merged → sweep_inv (seen ++ [h]) (merge_step merged h).
Proof.
  intros Hord [Hcov Hexp].
  assert (seen ⊆ seen ++ [h]) as Hsub
    by (intros h0 ?; apply elem_of_app; by left).
  assert (h ∈ seen ++ [h]) as Hh by (apply elem_of_app; right; left).
  destruct merged as [|r init _] using rev_ind.
  { rewrite merge_step_nil. split.
    - intros h' [Hh' | Hh']%elem_of_app.
      + destruct (Hcov h' Hh') as (r & Hr & _). by apply elem_of_nil in Hr.
      + apply list_elem_of_singleton in Hh' as ->. exists h.
        split; [left|apply absorbs_refl].
    - apply Forall_singleton. by apply explained_self. }
  apply Forall_app in Hexp as [Hexp_init Hexp_r].
  rewrite Forall_singleton in Hexp_r.
  destruct (decide (window_end r < window_start h)) as [Hnew | Habs].
  - rewrite merge_step_new by done. split.
    + intros h' [Hh' | Hh']%elem_of_app.
      * destruct (Hcov h' Hh') as (r0 & Hr0 & Ha). exists r0. split; [|done].
        apply elem_of_app in Hr0 as [? | Hr0]; apply elem_of_app; [by left|].
        right. apply list_elem_of_singleton in Hr0 as ->. left.
      * apply list_elem_of_singleton in Hh' as ->. exists h.
        split; [|apply absorbs_refl]. apply elem_of_app. right. right. left.
    + apply Forall_app. split.
      * eapply Forall_impl; [exact Hexp_init|]. intros r0. by apply explained_mono.
      * apply Forall_cons. split; [by eapply explained_mono|].
        apply Forall_singleton. by apply explained_self.
  - rewrite merge_step_absorb by lia.
    assert (window_start r ≤ window_start h) as Hle.
    { destruct Hexp_r as ((h0 & Hh0 & _ & <-) & _). by apply Hord. }
    split.
    + intros h' [Hh' | Hh']%elem_of_app.
      * destruct (Hcov h' Hh') as (r0 & Hr0 & Ha).
        apply elem_of_app in Hr0 as [Hr0 | Hr0].
        { exists r0. split; [apply elem_of_app; by left|done]. }
        apply list_elem_of_singleton in Hr0 as ->.
        eexists. split; [apply elem_of_app; right; left|].
        destruct Ha as ((? & ?) & ? & ?).
        unfold absorbs, within; cbn [window_start window_end score tags].
        split_and!; [lia|lia|by apply union_subseteq_l'|lia].
      * apply list_elem_of_singleton in Hh' as ->.
        eexists. split; [apply elem_of_app; right; left|].
        unfold absorbs, within; cbn [window_start window_end score tags].
        split_and!; [lia|lia|apply union_subseteq_r|lia].
    + apply Forall_app. split.
      * eapply Forall_impl; [exact Hexp_init|]. intros r0. by apply explained_mono.
      * apply Forall_singleton. by apply explained_absorb.
Qed.

Lemma sweep_fold_inv rest seen merged :
  StronglySorted starts_le (seen ++ rest) →
  sweep_inv seen merged →
  sweep_inv (seen ++ rest) (foldl merge_step merged rest).
Proof.
  revert seen merged. induction rest as [|h rest IH]; intros seen merged Hs Hinv.
  { by rewrite app_nil_r. }
  simpl. change (h :: rest) with ([h] ++ rest) in *. rewrite app_assoc in *.
  apply IH; [done|]. apply merge_step_sweep_inv; [|done].
  intros h' Hh'. apply StronglySorted_app_1_l in Hs.
  apply (StronglySorted_app_1_elem_of _ _ _ h' h Hs Hh'). left.
Qed.

Lemma merge_sweep_inv hits : sweep_inv hits (merge hits).
Proof.
  assert (sweep_inv (sorted hits) (merge hits)) as [Hcov Hexp].
  { apply (sweep_fold_inv (sorted hits) [] []).
    - apply window_le_starts_le, sorted_sorted.
    - split; [intros h Hh; by apply elem_of_nil in Hh|constructor]. }
  split.
  - intros h Hh. apply Hcov. by rewrite sorted_perm.
  - eapply Forall_impl; [exact Hexp|]. intros r. apply explained_mono.
    intros h. by rewrite sorted_perm.
Qed.

Lemma window_ok_separated_trans r1 r2 r3 :
  window_ok r2 → separated r1 r2 → separated r2 r3 → separated r1 r3.
Proof. unfold window_ok, separated. lia. Qed.

Lemma merge_step_separated merged h :
  window_ok h → Forall window_ok merged → StronglySorted separated merged →
  Forall window_ok (merge_step merged h)
  ∧ StronglySorted separated (merge_step merged h).
Proof.
  intros Hh Hb Hs.
  destruct merged as [|r init _] using rev_ind.
  { rewrite merge_step_nil. split; [by apply Forall_singleton|].
    repeat constructor. }
  apply Forall_app in Hb as [Hbi Hbr]. rewrite Forall_singleton in Hbr.
  apply StronglySorted_app in Hs as (Hcross & Hsi & _).
  destruct (decide (window_end r < window_start h)) as [Hnew | Habs].
  - rewrite merge_step_new by done. split.
    + apply Forall_app. split; [done|].
      apply Forall_cons. split; [done|]. by apply Forall_singleton.
    + apply StronglySorted_app. split_and!; [|done|].
      * intros x1 x2 Hx1 Hx2.
        apply elem_of_cons in Hx2 as [-> | Hx2]; [apply Hcross; [done|left]|].
        apply list_elem_of_singleton in Hx2 as ->.
        eapply window_ok_separated_trans; [exact Hbr| |exact Hnew].
        apply Hcross; [done|left].
      * repeat constructor. done.
  - rewrite merge_step_absorb by lia. split.
    + apply Forall_app. split; [done|]. apply Forall_singleton.
      unfold window_ok in *; simpl. lia.
    + apply StronglySorted_app. split_and!; [|done|repeat constructor].
      intros x1 x2 Hx1 Hx2. apply list_elem_of_singleton in Hx2 as ->.
      unfold separated; simpl. apply (Hcross x1 r); [done|left].
Qed.

Lemma merge_separated hits :
  Forall window_ok hits →
  Forall window_ok (merge hits) ∧ StronglySorted separated (merge hits).
Proof.
  intros Hok. unfold merge, sweep.
  assert (Forall window_ok (sorted hits)) as Hoks by (by rewrite sorted_perm).
  assert (∀ hs acc, Forall window_ok hs → Forall window_ok acc →
            StronglySorted separated acc →
            Forall window_ok (foldl merge_step acc hs)
            ∧ StronglySorted separated (foldl merge_step acc hs)) as H.
  { induction hs as [|h hs IH]; intros acc Hhs Hb Hs; simpl; [done|].
    apply Forall_cons in Hhs as [Hh Hhs].
    destruct (merge_step_separated acc h Hh Hb Hs). by apply IH. }
  apply H; [done|constructor|constructor].
Qed.

Lemma separated_cases l x y :
  StronglySorted separated l → x ∈ l → y ∈ l →
  x = y ∨ separated x y ∨ separated y x.
Proof.
  induction 1 as [|z l Hs IH Hz]; intros Hx Hy.
  { by apply elem_of_nil in Hx. }
  rewrite Forall_forall in Hz.
  apply elem_of_cons in Hx as [-> | Hx]; apply elem_of_cons in Hy as [-> | Hy].
  - by left.
  - right. left. by apply Hz.
  - right. right. by apply Hz.
  - by apply IH.
Qed.

(** A well-formed hit lies inside at most one of the merged regions. *)
Lemma within_unique l h r r' :
  StronglySorted separated l → window_ok h →
  r ∈ l → r' ∈ l → within h r → within h r' → r = r'.
Proof.
  intros Hs Hh Hr Hr' [? ?] [? ?].
  destruct (separated_cases l r r' Hs Hr Hr') as [? | [Hsep | Hsep]]; [done| |];
    unfold separated, window_ok in *; lia.
Qed.

(** X4. No hit is lost by the merge: the window of every hit lies inside
    a merged region that carries all tags of the hit and a score that is
    at least the score of the hit. *)
Theorem merge_covers_every_hit (hits : list Hit) (h : Hit) :
  h ∈ hits →
  ∃ r, r ∈ merge hits
       ∧ window_start r ≤ window_start h ∧ window_end h ≤ window_end r
       ∧ tags h ⊆ tags r ∧ score h ≤ score r.
Proof.
  intros Hh. destruct (merge_sweep_inv hits) as [Hcov _].
  destruct (Hcov h Hh) as (r & Hr & (Hs & He) & Ht & Hsc).
  exists r. split_and!; done.
Qed.

(** X5. Nothing is made up by the merge: for hits with [start <= end], the
    tags of a merged region are exactly the tags of the hits whose windows
    lie inside the region, its score is the largest score among those
    hits, and its bounds are the start of one hit and the end of one hit. *)
Theorem merge_region_aggregates (hits : list Hit) (r : Hit) :
  Forall window_ok hits → r ∈ merge hits →
  (∀ x, x ∈ tags r ↔ ∃ h, h ∈ hits ∧ within h r ∧ x ∈ tags h)
  ∧ (∃ h, h ∈ hits ∧ within h r ∧ score h = score r)
  ∧ (∀ h, h ∈ hits → within h r → score h ≤ score r)
  ∧ (∃ h, h ∈ hits ∧ window_start h = window_start r)
  ∧ (∃ h, h ∈ hits ∧ window_end h = window_end r).
Proof.
  intros Hok Hr.
  destruct (merge_sweep_inv hits) as [Hcov Hexp].
  destruct (merge_separated hits Hok) as [_ Hsep].
  rewrite Forall_forall in Hexp, Hok.
  destruct (Hexp r Hr) as (Hs & He & Hsc & Ht).
  assert (∀ h, h ∈ hits → within h r → absorbs r h) as Hin.
  { intros h Hh Hw. destruct (Hcov h Hh) as (r' & Hr' & Ha).
    pose proof Ha as [Hw' _].
    by rewrite (within_unique _ h r r' Hsep (Hok h Hh) Hr Hr' Hw Hw'). }
  split_and!.
  - intros x. split; [apply Ht|].
    intros (h & Hh & Hw & Hx). destruct (Hin h Hh Hw) as (_ & Hsub & _).
    by apply Hsub.
  - done.
  - intros h Hh Hw. by destruct (Hin h Hh Hw) as (_ & _ & ?).
  - destruct Hs as (h & ? & ? & ?). by exists h.
  - destruct He as (h & ? & ? & ?). by exists h.
Qed.

(** ** Regions of a document and its scoring sentences *)

Lemma collect_hits_hit_of sents (i : nat) s :
  sents !! i = Some s → fst (score_sentence s) ≠ 0 →
  hit_of (Z.of_nat (length sents)) i s ∈ collect_hits sents.
Proof.
  intros Hi Hs. unfold collect_hits. apply hits_from_elem.
  exists i, s. split_and!; [done|done|]. unfold hit_of. f_equal; lia.
Qed.

Lemma collect_hits_inv sents h :
  h ∈ collect_hits sents →
  ∃ (i : nat) s, sents !! i = Some s ∧ fst (score_sentence s) ≠ 0
                 ∧ h = hit_of (Z.of_nat (length sents)) i s.
Proof.
  unfold collect_hits. intros (i & s & Hi & Hs & ->)%hits_from_elem.
  exists i, s. split_and!; [done|done|]. unfold hit_of. f_equal; lia.
Qed.

Lemma hit_of_covers sents (i : nat) s :
  sents !! i = Some s →
  covers (hit_of (Z.of_nat (length sents)) i s) (Z.of_nat i).
Proof.
  intros Hi%lookup_lt_Some. unfold covers, hit_of, CONTEXT; simpl. lia.
Qed.

(** The region of a scoring sentence. *)
Lemma scoring_sentence_region sents (i : nat) s :
  sents !! i = Some s → fst (score_sentence s) ≠ 0 →
  ∃ r, r ∈ merge (collect_hits sents)
       ∧ absorbs r (hit_of (Z.of_nat (length sents)) i s)
       ∧ covers r (Z.of_nat i).
Proof.
  intros Hi Hs.
  destruct (merge_sweep_inv (collect_hits sents)) as [Hcov _].
  destruct (Hcov _ (collect_hits_hit_of sents i s Hi Hs)) as (r & Hr & Ha).
  exists r. split_and!; [done|done|].
  pose proof (hit_of_covers sents i s Hi) as [? ?].
  destruct Ha as ([? ?] & _). unfold covers. lia.
Qed.

Lemma covers_unique l r r' (i : Z) :
  StronglySorted separated l → r ∈ l → r' ∈ l →
  covers r i → covers r' i → r = r'.
Proof.
  intros Hs Hr Hr' [? ?] [? ?].
  destruct (separated_cases l r r' Hs Hr Hr') as [? | [Hsep | Hsep]]; [done| |];
    unfold separated in *; lia.
Qed.

(** X6. Every sentence with a nonzero score is shown in exactly one merged
    region: one region has the index of the sentence in its window and
    carries the score and the tags of the sentence at least, and no other
    region has the index in its window. Every sentence of the document is
    in the window of at most one region. *)
Theorem scoring_sentence_in_one_region (sents : list Span) (i : nat) (s : Span) :
  sents !! i = Some s → fst (score_sentence s) ≠ 0 →
  (∃ r, r ∈ merge (collect_hits sents)
        ∧ covers r (Z.of_nat i)
        ∧ snd (score_sentence s) ⊆ tags r
        ∧ fst (score_sentence s) ≤ score r)
  ∧ ∀ (j : Z) r r',
      r ∈ merge (collect_hits sents) → r' ∈ merge (collect_hits sents) →
      covers r j → covers r' j → r = r'.
Proof.
  intros Hi Hs. split.
  - destruct (scoring_sentence_region sents i s Hi Hs) as (r & Hr & Ha & Hc).
    exists r. destruct Ha as (_ & Ht & Hsc). split_and!; done.
  - intros j r r' Hr Hr'.
    destruct (merge_in_bounds sents) as [_ Hsep].
    by apply (covers_unique _ r r' j Hsep).
Qed.

(** X7. Two scoring sentences at most 2*CONTEXT+1 = 5 positions apart are
    shown in the same region. *)
Theorem near_scoring_sentences_share_region (sents : list Span)
    (i j : nat) (si sj : Span) :
  sents !! i = Some si → sents !! j = Some sj →
  fst (score_sentence si) ≠ 0 → fst (score_sentence sj) ≠ 0 →
  (i ≤ j ≤ i + 5)%nat →
  ∃ r, r ∈ merge (collect_hits sents)
       ∧ covers r (Z.of_nat i) ∧ covers r (Z.of_nat j).
Proof.
  intros Hi Hj Hsi Hsj Hij.
  destruct (scoring_sentence_region sents i si Hi Hsi) as (r & Hr & Ha & Hc).
  destruct (scoring_sentence_region sents j sj Hj Hsj) as (r' & Hr' & Ha' & Hc').
  exists r. split_and!; [done|done|].
  destruct (merge_in_bounds sents) as [_ Hsep].
  pose proof (lookup_lt_Some _ _ _ Hi) as Hli.
  pose proof (lookup_lt_Some _ _ _ Hj) as Hlj.
  destruct Ha as ([Has Hae] & _). destruct Ha' as ([Has' Hae'] & _).
  destruct Hc as [? ?]. destruct Hc' as [? ?].
  unfold hit_of, CONTEXT in *; cbn [window_start window_end] in *.
  destruct (separated_cases _ r r' Hsep Hr Hr') as [-> | [Hs | Hs]];
    [done| |]; unfold separated in Hs; lia.
Qed.

(** ** Shape of the merge *)

Lemma insort_last x acc :
  Forall (λ y, window_start y < window_start x) acc → insort x acc = acc ++ [x].
Proof.
  induction 1 as [|y acc Hy _ IH]; simpl; [done|].
  unfold hit_lt. rewrite bool_decide_eq_true_2 by lia.
  rewrite (proj2 (Z.ltb_ge _ _)) by lia. by rewrite IH.
Qed.

Lemma sorted_of_ascending acc rest :
  StronglySorted starts_before (acc ++ rest) →
  foldl (λ acc x, insort x acc) acc rest = acc ++ rest.
Proof.
  revert acc. induction rest as [|x rest IH]; intros acc Hs; simpl.
  { by rewrite app_nil_r. }
  rewrite insort_last.
  - change (x :: rest) with ([x] ++ rest) in *. rewrite app_assoc in *.
    by apply IH.
  - apply Forall_forall. intros y Hy.
    apply (StronglySorted_app_1_elem_of _ _ _ y x Hs Hy). left.
Qed.

Lemma sweep_of_separated acc rest :
  StronglySorted separated (acc ++ rest) →
  foldl merge_step acc rest = acc ++ rest.
Proof.
  revert acc. induction rest as [|x rest IH]; intros acc Hs; simpl.
  { by rewrite app_nil_r. }
  assert (merge_step acc x = acc ++ [x]) as ->.
  { destruct acc as [|r init _] using rev_ind; [done|].
    rewrite <- app_assoc. apply merge_step_new.
    apply (StronglySorted_app_1_elem_of _ _ _ r x Hs); [|left].
    apply elem_of_app. right. left. }
  change (x :: rest) with ([x] ++ rest) in *. rewrite app_assoc in *.
  by apply IH.
Qed.

Lemma separated_starts_before_ok l :
  Forall window_ok l → StronglySorted separated l →
  StronglySorted starts_before l.
Proof.
  intros Hb Hs. induction Hs as [|r l Hs IH Hr]; [constructor|].
  apply Forall_cons in Hb as [Hr0 Hb].
  constructor; [by apply IH|].
  eapply Forall_impl; [exact Hr|]. intros r'.
  unfold separated, starts_before, window_ok in *. lia.
Qed.

(** X8. Merging is idempotent: for hits with [start <= end], merging the
    merged regions again gives the same regions. *)
Theorem merge_idempotent (hits : list Hit) :
  Forall window_ok hits → merge (merge hits) = merge hits.
Proof.
  intros Hok. destruct (merge_separated hits Hok) as [Hok' Hsep].
  unfold merge at 1. unfold sorted, sweep.
  rewrite (sorted_of_ascending [] (merge hits))
    by (by apply separated_starts_before_ok).
  by apply (sweep_of_separated [] (merge hits)).
Qed.

Lemma merge_step_length merged h :
  (length (merge_step merged h) ≤ S (length merged))%nat
  ∧ merge_step merged h ≠ [].
Proof.
  unfold merge_step. destruct (last merged) as [r|] eqn:Hl.
  - apply last_Some in Hl as (init & ->).
    destruct (window_end r <? window_start h).
    + rewrite !length_app. simpl. split; [lia|]. by destruct init.
    + rewrite removelast_last, !length_app. simpl. split; [lia|].
      by destruct init.
  - rewrite length_app. simpl. split; [lia|]. by destruct merged.
Qed.

(** X9. The merge yields at most as many regions as there are hits, and
    a region at all as soon as there is a hit; a document has at most as
    many hits as sentences. *)
Theorem merge_region_count (sents : list Span) (hits : list Hit) :
  (length (merge hits) ≤ length hits)%nat
  ∧ (merge hits = [] ↔ hits = [])
  ∧ (length (collect_hits sents) ≤ length sents)%nat.
Proof.
  assert (∀ hs acc, (length (foldl merge_step acc hs) ≤ length acc + length hs)%nat
                    ∧ (hs ≠ [] → foldl merge_step acc hs ≠ [])) as H.
  { induction hs as [|h hs IH]; intros acc; simpl; [split; [lia|done]|].
    destruct (IH (merge_step acc h)) as [Hlen Hne].
    destruct (merge_step_length acc h) as [Hl1 Hn1].
    split; [lia|]. intros _. destruct hs as [|h' hs]; [done|].
    by apply Hne. }
  split_and!.
  - unfold merge, sweep. destruct (H (sorted hits) []) as [Hlen _].
    rewrite (Permutation_length (sorted_perm hits)) in Hlen. simpl in Hlen. lia.
  - split.
    + intros Hm. destruct hits as [|h hits]; [done|]. exfalso.
      destruct (H (sorted (h :: hits)) []) as [_ Hne]. apply Hne; [|done].
      intros Hnil. pose proof (sorted_perm (h :: hits)) as Hp.
      rewrite Hnil in Hp. by apply Permutation_nil_l in Hp.
    + by intros ->.
  - unfold collect_hits. generalize (Z.of_nat (length sents)) 0.
    induction sents as [|s sents IH]; intros n i; simpl; [lia|].
    rewrite length_app. specialize (IH n (i + 1)).
    case_bool_decide; simpl; lia.
Qed.

(** ** Tags and scores of the regions of a document *)

Lemma score_sentence_consistent s : score_consistent (score_sentence s).
Proof.
  unfold score_sentence. apply table_step_consistent.
  apply foldl_invariant; [intros a b; apply match_step_consistent|].
  apply foldl_invariant; [intros a b; apply vocab_step_consistent|].
  unfold score_consistent; cbn [fst snd]. split_and!; [lia|done|lia].
Qed.

Lemma sentence_tags_known s x : x ∈ snd (score_sentence s) → x ∈ TAG_NAMES.
Proof.
  unfold score_sentence, table_step, TAG_NAMES.
  rewrite match_fold, vocab_fold, !elem_of_app.
  destruct (looks_like_table (strip (span_text s))); cbn [fst snd];
    rewrite !elem_of_union, vocab_tags, rule_tags, ?elem_of_singleton,
      elem_of_empty; intros H.
  - destruct H as [[[[] | [? _]] | [? _]] | ->]; [by left|right; by left|].
    right. right. left.
  - destruct H as [[[] | [? _]] | [? _]]; [by left|right; by left].
Qed.

Lemma merge_absorbs_within hits r h :
  Forall window_ok hits → r ∈ merge hits → h ∈ hits → within h r →
  absorbs r h.
Proof.
  intros Hok Hr Hh Hw.
  destruct (merge_sweep_inv hits) as [Hcov _].
  destruct (merge_separated hits Hok) as [_ Hsep].
  rewrite Forall_forall in Hok.
  destruct (Hcov h Hh) as (r' & Hr' & Ha). pose proof Ha as [Hw' _].
  by rewrite (within_unique _ h r r' Hsep (Hok h Hh) Hr Hr' Hw Hw').
Qed.

(** X10. Every merged region of a document has at least one tag, only
    tags among the four categories, the three rules and TABLE, and a score
    of at least 2. *)
Theorem region_tags_and_score (sents : list Span) (r : Hit) :
  r ∈ merge (collect_hits sents) →
  2 ≤ score r ∧ tags r ≠ ∅ ∧ ∀ x, x ∈ tags r → x ∈ TAG_NAMES.
Proof.
  intros Hr.
  destruct (merge_sweep_inv (collect_hits sents)) as [_ Hexp].
  rewrite Forall_forall in Hexp.
  destruct (Hexp r Hr) as (_ & _ & (h & Hh & Hw & Hsc) & Ht).
  destruct (collect_hits_inv sents h Hh) as (i & s & Hi & Hs & ->).
  destruct (score_sentence_consistent s) as (_ & Hz & H2).
  split_and!.
  - rewrite <- Hsc. cbn [score hit_of]. by apply H2.
  - intros He.
    destruct (merge_absorbs_within _ r _ (collect_hits_window_ok sents) Hr Hh Hw)
      as (_ & Hsub & _).
    cbn [tags hit_of] in Hsub. rewrite He in Hsub.
    apply Hs, Hz. apply leibniz_equiv, elem_of_equiv_empty. intros x Hx.
    apply Hsub in Hx. by apply elem_of_empty in Hx.
  - intros x Hx. destruct (Ht x Hx) as (h' & Hh' & _ & Hx').
    destruct (collect_hits_inv sents h' Hh') as (i' & s' & _ & _ & ->).
    by apply (sentence_tags_known s').
Qed.

(** ** Shape of the output mapping *)

Lemma dd_append_keys {A} (k : string) (x : A) out :
  NoDup (fst <$> out) →
  NoDup (fst <$> dd_append k x out)
  ∧ (∀ k', k' ∈ (fst <$> dd_append k x out) ↔ k' = k ∨ k' ∈ (fst <$> out)).
Proof.
  induction out as [|[k0 v] rest IH]; simpl; intros Hnd.
  - split; [apply NoDup_singleton|]. intros k'.
    rewrite list_elem_of_singleton, elem_of_nil. tauto.
  - apply NoDup_cons in Hnd as [Hk0 Hnd]. case_bool_decide as Hk; simpl.
    + subst k0. split; [by apply NoDup_cons|]. intros k'.
      rewrite elem_of_cons. tauto.
    + destruct (IH Hnd) as [IHnd IHk]. split.
      * apply NoDup_cons. split; [|done]. rewrite IHk. intros [? | ?]; [congruence|done].
      * intros k'. rewrite !elem_of_cons, IHk. tauto.
Qed.

Lemma dd_append_nonempty {A} (k : string) (x : A) out :
  Forall (λ kv, snd kv ≠ []) out →
  Forall (λ kv, snd kv ≠ []) (dd_append k x out).
Proof.
  induction 1 as [|[k0 v] rest Hv Hrest IH]; simpl.
  - by apply Forall_singleton.
  - case_bool_decide; apply Forall_cons; split; simpl; try done.
    by destruct v.
Qed.

Lemma dd_append_entries {A} (k : string) (x : A) out :
  entries (dd_append k x out) ≡ₚ entries out ++ [x].
Proof.
  unfold entries. induction out as [|[k0 v] rest IH]; simpl; [done|].
  case_bool_decide; simpl.
  - rewrite <- !app_assoc. apply Permutation_app_head, Permutation_app_comm.
  - by rewrite IH, app_assoc.
Qed.

Lemma classify_label tgs : classify tgs ∈ LABELS.
Proof.
  unfold classify, LABELS. repeat case_bool_decide; rewrite !elem_of_cons; tauto.
Qed.

Lemma render_fold_shape kw_iter sents (rs : list Hit) out0 :
  Forall (in_bounds (Z.of_nat (length sents))) rs →
  NoDup (fst <$> out0) →
  Forall (λ kv, fst kv ∈ LABELS ∧ snd kv ≠ []) out0 →
  ∃ out,
    foldl (render_step kw_iter sents) (Some out0) rs = Some out
    ∧ NoDup (fst <$> out)
    ∧ Forall (λ kv, fst kv ∈ LABELS ∧ snd kv ≠ []) out
    ∧ entries out ≡ₚ entries out0 ++ (entry_of kw_iter sents <$> rs).
Proof.
  intros Hrs. revert out0.
  induction Hrs as [|r rs Hr Hrs IH]; intros out0 Hnd Hok; simpl.
  - exists out0. split_and!; try done. by rewrite app_nil_r.
  - rewrite (context_lines_slice kw_iter sents r Hr). simpl.
    set (e := (score r, snd (entry_of kw_iter sents r))).
    destruct (dd_append_keys (classify (tags r)) e out0 Hnd) as [Hnd' Hkeys].
    destruct (IH (dd_append (classify (tags r)) e out0)) as (out & Hout & ? & ? & Hent).
    + done.
    + apply Forall_forall. intros [k v] Hkv. split.
      * assert (k ∈ (fst <$> dd_append (classify (tags r)) e out0)) as Hk
          by (apply list_elem_of_fmap; by exists (k, v)).
        apply Hkeys in Hk as [-> | Hk]; [apply classify_label|].
        apply list_elem_of_fmap in Hk as ([k1 v1] & -> & Hk1).
        rewrite Forall_forall in Hok. by apply (Hok _ Hk1).
      * assert (Forall (λ kv, snd kv ≠ []) out0) as Hne
          by (eapply Forall_impl; [exact Hok|]; by intros ? [_ ?]).
        pose proof (dd_append_nonempty (classify (tags r)) e out0 Hne) as Hne'.
        rewrite Forall_forall in Hne'. by apply (Hne' _ Hkv).
    + exists out. split_and!; try done.
      rewrite Hent, dd_append_entries, <- app_assoc. done.
Qed.

Lemma analyze_shape kw_iter nlp_sents text :
  ∃ out,
    analyze kw_iter nlp_sents text = Some out
    ∧ NoDup (fst <$> out)
    ∧ Forall (λ kv, fst kv ∈ LABELS ∧ snd kv ≠ []) out
    ∧ entries out ≡ₚ
      entry_of kw_iter (nlp_sents text) <$> merge (collect_hits (nlp_sents text)).
Proof.
  destruct (merge_in_bounds (nlp_sents text)) as [Hb _].
  unfold analyze. destruct (nlp_sents text) as [|s0 rest] eqn:Hsents.
  - exists []. split_and!; try done; constructor.
  - destruct (render_fold_shape kw_iter (s0 :: rest) _ [] Hb)
      as (out & Hout & ? & ? & Hent); [constructor|constructor|].
    by exists out.
Qed.

(** X11. [analyze] always returns a mapping; its keys are among the five
    labels, no key occurs twice, no key has an empty list, and the entries
    of the mapping are the entries of the merged regions, one for each
    region. *)
Theorem analyze_output_shape (kw_iter : list string)
    (nlp_sents : list char → list Span) (text : list char) :
  ∃ out,
    analyze kw_iter nlp_sents text = Some out
    ∧ NoDup (fst <$> out)
    ∧ (length out ≤ 5)%nat
    ∧ Forall (λ kv, fst kv ∈ LABELS ∧ snd kv ≠ []) out
    ∧ entries out ≡ₚ
      entry_of kw_iter (nlp_sents text) <$> merge (collect_hits (nlp_sents text)).
Proof.
  destruct (analyze_shape kw_iter nlp_sents text) as (out & Hout & Hnd & Hok & Hent).
  exists out. split_and!; try done.
  assert ((fst <$> out) ⊆ LABELS) as Hsub.
  { intros k ([k' v] & -> & Hkv)%list_elem_of_fmap.
    rewrite Forall_forall in Hok. by apply (Hok _ Hkv). }
  pose proof (submseteq_length _ _ (NoDup_submseteq _ _ Hnd Hsub)) as Hlen.
  rewrite length_fmap in Hlen. exact Hlen.
Qed.

Lemma slice_length {A} (l : list A) (a b : Z) :
  0 ≤ a → a ≤ b → b ≤ Z.of_nat (length l) →
  length (slice l a b) = Z.to_nat (b - a).
Proof.
  intros. unfold slice. rewrite length_take, length_drop. lia.
Qed.

Lemma region_lines_bound n (lo : Z) (l : list Hit) :
  Forall (in_bounds n) l → StronglySorted separated l →
  Forall (λ r, lo ≤ window_start r) l → lo ≤ n →
  (sum_list_with (λ r, Z.to_nat (window_end r - window_start r)) l
   ≤ Z.to_nat (n - lo))%nat.
Proof.
  intros Hb Hs. revert lo.
  induction Hs as [|r l Hs IH Hr]; intros lo Hlo Hn; simpl; [lia|].
  apply Forall_cons in Hb as [(H0 & Hlt & Hle) Hb].
  apply Forall_cons in Hlo as [Hr0 _].
  specialize (IH Hb (window_end r)).
  assert (Forall (λ r0, window_end r ≤ window_start r0) l) as Hlo'.
  { eapply Forall_impl; [exact Hr|]. intros r0. unfold separated. lia. }
  specialize (IH Hlo' Hle). lia.
Qed.

Lemma sum_list_with_fmap_ext {A B} (f : B → nat) (g : A → B) (h : A → nat) l :
  Forall (λ x, f (g x) = h x) l →
  sum_list_with f (g <$> l) = sum_list_with h l.
Proof.
  induction 1 as [|x l Hx _ IH]; simpl; [done|]. rewrite Hx. f_equal. apply IH.
Qed.

(** X12. No sentence is shown twice: every entry of the output lists at
    least one context line, and all entries together list at most as many
    context lines as the document has sentences. *)
Theorem analyze_lines_bound (kw_iter : list string)
    (nlp_sents : list char → list Span) (text : list char) :
  ∃ out,
    analyze kw_iter nlp_sents text = Some out
    ∧ Forall (λ e, (1 ≤ length (snd e))%nat) (entries out)
    ∧ (line_count (entries out) ≤ length (nlp_sents text))%nat.
Proof.
  destruct (analyze_shape kw_iter nlp_sents text) as (out & Hout & _ & _ & Hent).
  destruct (merge_in_bounds (nlp_sents text)) as [Hb Hs].
  exists out. split; [done|].
  assert (∀ r, in_bounds (Z.of_nat (length (nlp_sents text))) r →
            length (snd (entry_of kw_iter (nlp_sents text) r))
            = Z.to_nat (window_end r - window_start r)) as Hlen.
  { intros r (H0 & Hlt & Hle). unfold entry_of. cbn [snd].
    rewrite length_fmap. apply slice_length; lia. }
  split.
  - rewrite Hent. apply Forall_fmap.
    eapply Forall_impl; [exact Hb|]. intros r Hr. cbn [compose].
    rewrite (Hlen r Hr). destruct Hr as (? & ? & ?). lia.
  - unfold line_count. rewrite Hent.
    rewrite (sum_list_with_fmap_ext _ _
               (λ r, Z.to_nat (window_end r - window_start r)))
      by (eapply Forall_impl; [exact Hb|]; intros r Hr; by apply Hlen).
    pose proof (region_lines_bound _ 0 _ Hb Hs) as Hbound.
    rewrite Z.sub_0_r, Nat2Z.id in Hbound. apply Hbound; [|lia].
    eapply Forall_impl; [exact Hb|]. by intros r (? & _).
Qed.

(** ** What highlighting does to the text *)

Lemma erase_brackets_app t1 t2 :
  erase_brackets (t1 ++ t2) = erase_brackets t1 ++ erase_brackets t2.
Proof. apply filter_app. Qed.

Lemma re_sub_from_erase fuel k prev t :
  erase_brackets (re_sub_from fuel k prev t) = erase_brackets t.
Proof.
  revert prev t. induction fuel as [|f IH]; intros prev [|c t']; try done.
  cbn [re_sub_from]. destruct (match_here k prev (c :: t')).
  - rewrite !erase_brackets_app, IH.
    change (erase_brackets HL_S) with (@nil char).
    change (erase_brackets HL_E) with (@nil char).
    cbn [app]. rewrite <- erase_brackets_app. by rewrite take_drop.
  - unfold erase_brackets in *. by rewrite !filter_cons, IH.
Qed.

Lemma re_sub_from_sublist fuel k prev t :
  t `sublist_of` re_sub_from fuel k prev t.
Proof.
  revert prev t. induction fuel as [|f IH]; intros prev [|c t']; try done.
  cbn [re_sub_from]. destruct (match_here k prev (c :: t')).
  - rewrite <- (take_drop (length k) (c :: t')) at 1.
    apply sublist_inserts_l, sublist_app; [done|].
    apply sublist_inserts_l, IH.
  - apply sublist_skip, IH.
Qed.

(** X13. Highlighting only inserts marker characters: the text is a
    subsequence of its highlighted form, and both are the same once the
    characters [[] and []] are taken out. *)
Theorem highlight_only_inserts_markers (kw_iter : list string) (t : list char) :
  t `sublist_of` highlight kw_iter t
  ∧ erase_brackets (highlight kw_iter t) = erase_brackets t
  ∧ (length t ≤ length (highlight kw_iter t))%nat.
Proof.
  unfold highlight. generalize (sorted_by_len_desc kw_iter). intros ks.
  assert (t `sublist_of` foldl (λ t k, re_sub (str k) t) t ks
          ∧ erase_brackets (foldl (λ t k, re_sub (str k) t) t ks)
            = erase_brackets t) as [Hsub Her].
  { revert t. induction ks as [|k ks IH]; intros t; simpl; [done|].
    destruct (IH (re_sub (str k) t)) as [Hsub Her]. split.
    - etrans; [|exact Hsub]. apply re_sub_from_sublist.
    - rewrite Her. apply re_sub_from_erase. }
  split_and!; [done|done|]. by apply sublist_length.
Qed.







Lemma all_keywords_ascii k : k ∈ ALL_KEYWORDS → ascii_text (str k) = true.
Proof.
  revert k. change (set_Forall (λ k, ascii_text (str k) = true) ALL_KEYWORDS).
  compute_done.
Qed.


Lemma lstrip_suffix t : ∃ pre, t = pre ++ lstrip t.
Proof.
  induction t as [|c t [pre IH]]; simpl; [by exists []|].
  destruct (is_space c); [|by exists []].
  exists (c :: pre). simpl. by rewrite <- IH.
Qed.

(** The stripped text is a piece of the text. *)
Lemma strip_infix t : ∃ pre post, t = pre ++ strip t ++ post.
Proof.
  unfold strip. destruct (lstrip_suffix t) as [pre Hpre].
  destruct (lstrip_suffix (rev (lstrip t))) as [post Hpost].
  exists pre, (rev post). rewrite <- rev_app_distr, <- Hpost, rev_involutive.
  exact Hpre.
Qed.



(** ** The input loop *)

Lemma lstrip_nil_iff t : lstrip t = [] ↔ Forall (λ c, is_space c = true) t.
Proof.
  induction t as [|c t IH]; simpl; [split; [constructor|done]|].
  destruct (is_space c) eqn:Hc.
  - rewrite IH, Forall_cons. tauto.
  - split; [done|]. intros [Hc' _]%Forall_cons. congruence.
Qed.

Lemma lstrip_head t c u : lstrip t = c :: u → is_space c = false.
Proof.
  induction t as [|c' t IH]; simpl; [done|].
  destruct (is_space c') eqn:Hc; [done|]. by intros [= <- _].
Qed.

Lemma lstrip_spaces_nil t :
  Forall (λ c, is_space c = true) (lstrip t) → lstrip t = [].
Proof.
  destruct (lstrip t) as [|c u] eqn:Hl; [done|].
  intros [Hc _]%Forall_cons. apply lstrip_head in Hl. congruence.
Qed.

Lemma strip_nil_iff t : strip t = [] ↔ Forall (λ c, is_space c = true) t.
Proof.
  unfold strip. rewrite <- lstrip_nil_iff. split.
  - intros H. apply (f_equal (@rev char)) in H. rewrite rev_involutive in H.
    simpl in H. apply lstrip_nil_iff, Forall_rev in H.
    rewrite rev_involutive in H. by apply lstrip_spaces_nil.
  - by intros ->.
Qed.

Lemma join_spaces lines :
  unicode_laws U →
  Forall (λ c, is_space c = true) (join [newline] lines)
  ↔ Forall (Forall (λ c, is_space c = true)) lines.
Proof.
  intros HU. induction lines as [|l [|l' rest] IH].
  - simpl. split; constructor.
  - simpl. rewrite Forall_singleton. done.
  - change (join [newline] (l :: l' :: rest))
      with (l ++ [newline] ++ join [newline] (l' :: rest)).
    rewrite !Forall_app, IH, (Forall_cons _ l), Forall_singleton.
    assert (is_space newline = true) by (by rewrite (is_space_ascii U HU)).
    tauto.
Qed.

Lemma read_lines_prefix pre post :
  Forall (λ l, l ≠ []) pre → read_lines (pre ++ [] :: post) = Some pre.
Proof.
  induction 1 as [|l pre Hl _ IH]; simpl; [done|].
  destruct l; [done|]. by rewrite IH.
Qed.

(** X15. The scripts read the typed lines up to the first empty line and
    ignore what follows it; without an empty line reading ends in an
    error. The annotation script then leaves without calling [analyze]
    when the lines hold white space only, and otherwise hands [analyze]
    the lines joined by newlines. *)
Theorem script_reads_up_to_empty_line (pre post : list (list char)) :
  unicode_laws U →
  Forall (λ l, l ≠ []) pre →
  read_lines pre = None
  ∧ read_lines (pre ++ [] :: post) = Some pre
  ∧ (Forall (Forall (λ c, is_space c = true)) pre →
     script_text (pre ++ [] :: post) = Some None)
  ∧ (¬ Forall (Forall (λ c, is_space c = true)) pre →
     script_text (pre ++ [] :: post) = Some (Some (join [newline] pre))).
Proof.
  intros HU Hpre. split_and!.
  - induction Hpre as [|l pre Hl _ IH]; simpl; [done|].
    destruct l; [done|]. by rewrite IH.
  - by apply read_lines_prefix.
  - intros Hsp. unfold script_text. rewrite read_lines_prefix by done. simpl.
    apply (join_spaces _ HU), strip_nil_iff in Hsp. by rewrite Hsp.
  - intros Hsp. unfold script_text. rewrite read_lines_prefix by done. simpl.
    destruct (strip (join [newline] pre)) eqn:Hs; [|done].
    exfalso. by apply Hsp, (join_spaces _ HU), strip_nil_iff.
Qed.

(** ** The ranked sentence extractor *)

Lemma str_lt_asym a b : str_lt a b = true → str_lt b a = false.
Proof.
  revert b. induction a as [|x a IH]; intros [|y b]; simpl; try done.
  repeat case_bool_decide; subst; try done; [apply IH|].
  rewrite N.ltb_lt, N.ltb_ge. lia.
Qed.

Lemma str_nlt_trans a b c :
  str_lt b a = false → str_lt c b = false → str_lt c a = false.
Proof.
  revert b c. induction a as [|x a IH]; intros [|y b] [|z c]; simpl; try done.
  destruct (decide (y = x)) as [Hyx | Hyx], (decide (z = y)) as [Hzy | Hzy],
    (decide (z = x)) as [Hzx | Hzx];
    rewrite ?(bool_decide_eq_true_2 _ Hyx), ?(bool_decide_eq_true_2 _ Hzy),
      ?(bool_decide_eq_true_2 _ Hzx), ?(bool_decide_eq_false_2 _ Hyx),
      ?(bool_decide_eq_false_2 _ Hzy), ?(bool_decide_eq_false_2 _ Hzx);
    try congruence; rewrite ?N.ltb_ge; try (apply IH).
  all: intros H1 H2; try lia; exfalso; subst; lia.
Qed.

Lemma ranked_lt_asym x y : ranked_lt x y = true → ranked_ge y x.
Proof.
  unfold ranked_ge, ranked_lt. repeat case_bool_decide; try congruence.
  - rewrite Z.ltb_lt, Z.ltb_ge. lia.
  - apply str_lt_asym.
Qed.

Lemma ranked_ge_trans x y z : ranked_ge x y → ranked_ge y z → ranked_ge x z.
Proof.
  unfold ranked_ge, ranked_lt. repeat case_bool_decide;
    rewrite ?Z.ltb_ge; try lia; try congruence.
  intros Hxy Hyz. by apply (str_nlt_trans _ (snd y)).
Qed.

Lemma insort_ranked_perm x l : insort_ranked x l ≡ₚ x :: l.
Proof.
  induction l as [|y l IH]; simpl; [done|].
  destruct (ranked_lt x y); [done|]. rewrite IH. apply Permutation_swap.
Qed.

Lemma insort_ranked_sorted x l :
  StronglySorted (flip ranked_ge) l →
  StronglySorted (flip ranked_ge) (insort_ranked x l).
Proof.
  induction l as [|y l IH]; simpl; intros Hs.
  - repeat constructor.
  - apply StronglySorted_cons in Hs as [Hy Hl].
    destruct (ranked_lt x y) eqn:Hlt.
    + apply StronglySorted_cons. split; [|by apply StronglySorted_cons].
      apply ranked_lt_asym in Hlt. constructor; [done|].
      eapply Forall_impl; [exact Hy|]. intros z Hz. unfold flip in *.
      by eapply ranked_ge_trans.
    + apply StronglySorted_cons. split; [|by apply IH].
      rewrite insort_ranked_perm. by constructor.
Qed.

Lemma StronglySorted_rev_flip {A} (R : A → A → Prop) l :
  StronglySorted (flip R) l → StronglySorted R (rev l).
Proof.
  induction 1 as [|x l Hs IH Hx]; simpl; [constructor|].
  apply StronglySorted_app. split_and!; [|done|repeat constructor].
  intros y z Hy Hz. apply list_elem_of_singleton in Hz as ->.
  rewrite Forall_forall in Hx. apply Hx.
  apply list_elem_of_In, in_rev. by apply list_elem_of_In.
Qed.

Lemma sort_reverse_perm l : sort_reverse l ≡ₚ l.
Proof.
  unfold sort_reverse.
  assert (∀ l' acc, foldl (λ acc x, insort_ranked x acc) acc l' ≡ₚ acc ++ l') as H.
  { induction l' as [|x l' IH]; intros acc; simpl.
    - by rewrite app_nil_r.
    - rewrite IH, insort_ranked_perm. simpl. apply Permutation_middle. }
  etrans; [symmetry; apply Permutation_rev|].
  etrans; [apply H|]. simpl. symmetry. apply Permutation_rev.
Qed.

Lemma sort_reverse_sorted l : StronglySorted ranked_ge (sort_reverse l).
Proof.
  unfold sort_reverse. apply StronglySorted_rev_flip.
  assert (∀ l' acc, StronglySorted (flip ranked_ge) acc →
            StronglySorted (flip ranked_ge)
              (foldl (λ acc x, insort_ranked x acc) acc l')) as H.
  { induction l' as [|x l' IH]; intros acc Hacc; simpl; [done|].
    apply IH. by apply insort_ranked_sorted. }
  apply H. constructor.
Qed.

(** X16. The ranked extractor returns the scored sentences, each as often
    as it was scored, in descending order of the tuples (score, sentence):
    no entry is smaller than an entry behind it, so the scores never
    increase along the result. *)
Theorem extract_ranked_sentences_order (text : list char)
    (stationary_keywords : list (list char)) :
  ∃ ranked,
    extract_ranked_sentences text stationary_keywords = snd <$> ranked
    ∧ ranked ≡ₚ scored_sentences text stationary_keywords
    ∧ StronglySorted ranked_ge ranked
    ∧ StronglySorted (λ x y, fst y ≤ fst x) ranked.
Proof.
  exists (sort_reverse (scored_sentences text stationary_keywords)).
  split_and!; [done|apply sort_reverse_perm|apply sort_reverse_sorted|].
  generalize (sort_reverse_sorted (scored_sentences text stationary_keywords)).
  induction 1 as [|x l Hs IH Hx]; constructor; [done|].
  eapply Forall_impl; [exact Hx|]. intros y. unfold ranked_ge, ranked_lt.
  case_bool_decide; rewrite ?Z.ltb_ge; lia.
Qed.

Lemma split_on_nonempty sep t : split_on sep t ≠ [].
Proof.
  induction t as [|c t IH]; simpl; [done|].
  case_bool_decide; [done|]. by destruct (split_on sep t).
Qed.

Lemma split_on_no_sep sep t : Forall (λ p, sep ∉ p) (split_on sep t).
Proof.
  induction t as [|c t IH]; simpl.
  - apply Forall_singleton. apply not_elem_of_nil.
  - case_bool_decide as Hc.
    + apply Forall_cons. split; [apply not_elem_of_nil|done].
    + destruct (split_on sep t) as [|p ps].
      * apply Forall_singleton. rewrite list_elem_of_singleton. congruence.
      * apply Forall_cons in IH as [Hp Hps]. apply Forall_cons. split; [|done].
        rewrite elem_of_cons. intros [? | ?]; [congruence|done].
Qed.

Lemma split_on_length sep t :
  length (split_on sep t) = S (length (filter (λ c, c = sep) t)).
Proof.
  induction t as [|c t IH]; simpl; [done|]. rewrite filter_cons.
  case_bool_decide; case_decide; try done; simpl; [by rewrite IH|].
  destruct (split_on sep t); simpl in *; lia.
Qed.

Lemma keyword_score_pos keywords sl :
  0 < keyword_score keywords sl ↔ ∃ k, k ∈ keywords ∧ contains k sl = true.
Proof.
  unfold keyword_score. split.
  - intros Hpos.
    destruct (filter (λ k, contains k sl = true) keywords) as [|k l] eqn:Hf;
      [simpl in Hpos; lia|].
    assert (k ∈ filter (λ k, contains k sl = true) keywords) as Hk
      by (rewrite Hf; left).
    apply list_elem_of_filter in Hk as [? ?]. by exists k.
  - intros (k & Hk & Hc).
    assert (k ∈ filter (λ k, contains k sl = true) keywords) as Hin
      by (by apply list_elem_of_filter).
    destruct (filter _ keywords); [by apply elem_of_nil in Hin|simpl; lia].
Qed.

Lemma scored_sentences_elem text kws (e : Z * list char) :
  e ∈ scored_sentences text kws ↔
  ∃ piece, piece ∈ split_on period text
           ∧ 0 < keyword_score (lower <$> kws) (lower piece)
           ∧ e = (keyword_score (lower <$> kws) (lower piece), strip piece).
Proof.
  unfold scored_sentences. rewrite list_elem_of_In, in_flat_map.
  setoid_rewrite <- list_elem_of_In. split.
  - intros (piece & Hp & He). exists piece. split; [done|].
    destruct (0 <? keyword_score _ _) eqn:Hpos; [|by apply elem_of_nil in He].
    apply Z.ltb_lt in Hpos. by apply list_elem_of_singleton in He.
  - intros (piece & Hp & Hpos & ->). exists piece. split; [done|].
    apply Z.ltb_lt in Hpos. rewrite Hpos. left.
Qed.

Lemma strip_elem c t : c ∈ strip t → c ∈ t.
Proof.
  destruct (strip_infix t) as (pre & post & Heq). intros Hc.
  rewrite Heq, !elem_of_app. tauto.
Qed.

Lemma lstrip_last t : lstrip t ≠ [] → last (lstrip t) = last t.
Proof.
  induction t as [|c t IH]; simpl; [done|].
  destruct (is_space c); [|done]. intros Hne.
  rewrite IH by done. destruct t; [done|]. by rewrite last_cons_cons.
Qed.

Lemma head_of_rev {A} (l : list A) : head (rev l) = last l.
Proof. rewrite rev_alt. apply head_reverse. Qed.

Lemma last_of_rev {A} (l : list A) : last (rev l) = head l.
Proof. rewrite rev_alt. apply last_reverse. Qed.

(** The stripped text neither starts nor ends with white space. *)
Lemma strip_ends t c :
  head (strip t) = Some c ∨ last (strip t) = Some c → is_space c = false.
Proof.
  unfold strip. set (u := lstrip t). set (v := lstrip (rev u)).
  assert (v = [] ∨ v ≠ []) as [Hv | Hv] by (destruct v; [by left|by right]).
  { rewrite Hv. simpl. by intros [? | ?]. }
  intros [Hh | Hl].
  - rewrite head_of_rev in Hh. unfold v in Hh. rewrite lstrip_last in Hh by done.
    rewrite last_of_rev in Hh. destruct u as [|c' u'] eqn:Hu; [done|].
    simpl in Hh. injection Hh as <-. by apply (lstrip_head t c' u').
  - rewrite last_of_rev in Hl. destruct v as [|c' v'] eqn:Hv'; [done|].
    simpl in Hl. injection Hl as <-. by apply (lstrip_head (rev u) c' v').
Qed.

(** X17. A sentence is returned by the ranked extractor exactly when it is
    the stripped form of a piece of the text between two periods in which,
    case ignored, one of the keywords occurs. A returned sentence holds no
    period and neither starts nor ends with white space. *)
Theorem extract_ranked_sentences_elem (text : list char)
    (stationary_keywords : list (list char)) (r : list char) :
  (r ∈ extract_ranked_sentences text stationary_keywords ↔
   ∃ piece k,
     piece ∈ split_on period text ∧ k ∈ stationary_keywords
     ∧ occurs_in (lower k) (lower piece) ∧ r = strip piece)
  ∧ (r ∈ extract_ranked_sentences text stationary_keywords →
     (period ∉ r)
     ∧ ∀ c, head r = Some c ∨ last r = Some c → is_space c = false).
Proof.
  assert (r ∈ extract_ranked_sentences text stationary_keywords ↔
          ∃ piece k,
            piece ∈ split_on period text ∧ k ∈ stationary_keywords
            ∧ occurs_in (lower k) (lower piece) ∧ r = strip piece) as Hiff.
  { unfold extract_ranked_sentences. rewrite sort_reverse_perm.
    rewrite list_elem_of_fmap. split.
    - intros ([sc r'] & -> & He). apply scored_sentences_elem in He
        as (piece & Hp & Hpos & [= -> ->]).
      apply keyword_score_pos in Hpos as (k' & Hk' & Hc).
      apply list_elem_of_fmap in Hk' as (k & -> & Hk).
      exists piece, k. split_and!; try done. by apply contains_spec.
    - intros (piece & k & Hp & Hk & Hocc & ->).
      exists (keyword_score (lower <$> stationary_keywords) (lower piece),
              strip piece).
      split; [done|]. apply scored_sentences_elem. exists piece.
      split_and!; try done. apply keyword_score_pos. exists (lower k).
      split; [apply list_elem_of_fmap; by exists k|by apply contains_spec]. }
  split; [exact Hiff|].
  intros (piece & k & Hp & _ & _ & ->)%Hiff. split.
  - intros Hdot%strip_elem.
    pose proof (split_on_no_sep period text) as Hno.
    rewrite Forall_forall in Hno. by apply (Hno piece).
  - intros c. apply strip_ends.
Qed.

(** X18. The ranked extractor returns at most one sentence more than the
    text has periods, and nothing when there are no keywords. *)
Theorem extract_ranked_sentences_size (text : list char)
    (stationary_keywords : list (list char)) :
  (length (extract_ranked_sentences text stationary_keywords)
   ≤ S (length (filter (λ c, c = period) text)))%nat
  ∧ extract_ranked_sentences text [] = [].
Proof.
  split.
  - unfold extract_ranked_sentences.
    rewrite length_fmap, (Permutation_length (sort_reverse_perm _)).
    rewrite <- split_on_length. unfold scored_sentences.
    induction (split_on period text) as [|p ps IH]; simpl; [lia|].
    rewrite length_app. destruct (0 <? _); simpl; lia.
  - assert (scored_sentences text [] = []) as Hnil.
    { apply elem_of_nil_inv. intros e (piece & _ & Hpos & _)%scored_sentences_elem.
      apply keyword_score_pos in Hpos as (k & Hk & _). by apply elem_of_nil in Hk. }
    unfold extract_ranked_sentences. by rewrite Hnil.
Qed.

(** * The condition extractor *)

(** ** Removing repeated signatures *)

Section UniqueBy.
Context {A S : Type} `{Countable S}.
Variable sig : A → S.

Lemma unique_by_sublist seen l : unique_by sig seen l `sublist_of` l.
Proof.
  revert seen. induction l as [|c l IH]; intros seen; simpl; [done|].
  case_bool_decide; [apply sublist_cons, IH|apply sublist_skip, IH].
Qed.

Lemma unique_by_fresh seen l c :
  c ∈ unique_by sig seen l → sig c ∉ seen.
Proof.
  revert seen. induction l as [|c0 l IH]; intros seen; simpl.
  { intros Hc. by apply elem_of_nil in Hc. }
  case_bool_decide as Hs; [apply IH|].
  intros [-> | Hc]%elem_of_cons; [done|].
  apply IH in Hc. intros Hin. apply Hc, elem_of_union. by right.
Qed.

Lemma unique_by_NoDup seen l : NoDup (sig <$> unique_by sig seen l).
Proof.
  revert seen. induction l as [|c l IH]; intros seen; simpl; [constructor|].
  case_bool_decide; [apply IH|].
  rewrite fmap_cons. apply NoDup_cons. split; [|apply IH].
  intros (c' & Heq & Hc')%list_elem_of_fmap.
  apply unique_by_fresh in Hc'. apply Hc', elem_of_union. left.
  apply elem_of_singleton. done.
Qed.

Lemma unique_by_complete seen l c :
  c ∈ l → sig c ∈ seen ∨ sig c ∈ (sig <$> unique_by sig seen l).
Proof.
  revert seen. induction l as [|c0 l IH]; intros seen Hc; simpl.
  { by apply elem_of_nil in Hc. }
  apply elem_of_cons in Hc as [-> | Hc].
  - case_bool_decide; [by left|]. right. rewrite fmap_cons. left.
  - case_bool_decide; [by apply IH|].
    destruct (IH ({[sig c0]} ∪ seen) Hc) as [Hin | Hin].
    + apply elem_of_union in Hin as [->%elem_of_singleton | ?]; [|by left].
      right. rewrite fmap_cons. left.
    + right. rewrite fmap_cons. by right.
Qed.

(** The element kept for a signature is the first one that has it. *)
Lemma unique_by_first seen l c :
  c ∈ unique_by sig seen l →
  ∃ pre post, l = pre ++ c :: post ∧ sig c ∉ (sig <$> pre).
Proof.
  revert seen. induction l as [|c0 l IH]; intros seen; simpl.
  { intros Hc. by apply elem_of_nil in Hc. }
  case_bool_decide as Hs.
  - intros Hc. pose proof (unique_by_fresh _ _ _ Hc) as Hfresh.
    destruct (IH _ Hc) as (pre & post & -> & Hpre).
    exists (c0 :: pre), post. split; [done|].
    rewrite fmap_cons, elem_of_cons. intros [Heq | ?]; [|done].
    apply Hfresh. by rewrite Heq.
  - intros [-> | Hc]%elem_of_cons.
    + exists [], l. split; [done|]. apply not_elem_of_nil.
    + pose proof (unique_by_fresh _ _ _ Hc) as Hfresh.
      destruct (IH _ Hc) as (pre & post & -> & Hpre).
      exists (c0 :: pre), post. split; [done|].
      rewrite fmap_cons, elem_of_cons. intros [Heq | ?]; [|done].
      apply Hfresh, elem_of_union. left. by apply elem_of_singleton.
Qed.

Lemma unique_by_id seen l :
  NoDup (sig <$> l) → (∀ c, c ∈ l → sig c ∉ seen) → unique_by sig seen l = l.
Proof.
  revert seen. induction l as [|c l IH]; intros seen Hnd Hfresh; simpl; [done|].
  rewrite fmap_cons in Hnd. apply NoDup_cons in Hnd as [Hc Hnd].
  rewrite bool_decide_eq_false_2 by (apply Hfresh; left).
  f_equal. apply IH; [done|]. intros c' Hc' [Heq%elem_of_singleton | Hin]%elem_of_union.
  - apply Hc, list_elem_of_fmap. exists c'. by rewrite Heq.
  - apply (Hfresh c'); [by right|done].
Qed.

(** X19. The loop that removes repeats keeps the first element of each
    signature, in the order of the input: the result is a subsequence of
    the input, no two of its elements have the same signature, every
    signature of the input is still there, and running the loop on its
    result changes nothing. *)
Theorem unique_by_first_of_each (l : list A) :
  unique_by sig ∅ l `sublist_of` l
  ∧ NoDup (sig <$> unique_by sig ∅ l)
  ∧ (∀ c, c ∈ l → sig c ∈ (sig <$> unique_by sig ∅ l))
  ∧ (∀ c, c ∈ unique_by sig ∅ l →
       ∃ pre post, l = pre ++ c :: post ∧ sig c ∉ (sig <$> pre))
  ∧ unique_by sig ∅ (unique_by sig ∅ l) = unique_by sig ∅ l.
Proof.
  split_and!.
  - apply unique_by_sublist.
  - apply unique_by_NoDup.
  - intros c Hc. destruct (unique_by_complete ∅ l c Hc) as [Hin | ?]; [|done].
    by apply elem_of_empty in Hin.
  - intros c. apply unique_by_first.
  - apply unique_by_id; [apply unique_by_NoDup|].
    intros c _. apply not_elem_of_empty.
Qed.

End UniqueBy.

(** ** Associations of polymers and columns *)

Lemma found_in_elem names ctx n :
  n ∈ found_in names ctx ↔ n ∈ names ∧ mentions (str n) ctx = true.
Proof. unfold found_in. rewrite list_elem_of_filter. tauto. Qed.

Lemma line_associations_elem lines i line a :
  a ∈ line_associations lines i line →
  any_in (lower line) analysis_keywords = true
  ∧ polymer a ∈ polymer_samples ∧ mentions (str (polymer a)) (context_of lines i) = true
  ∧ column a ∈ polymer_names ∧ mentions (str (column a)) (context_of lines i) = true
  ∧ context a = strip line.
Proof.
  unfold line_associations.
  destruct (any_in (lower line) analysis_keywords); [|by intros ?%elem_of_nil].
  intros Ha.
  assert (a ∈ flat_map
            (λ poly, (λ col, mkAssoc poly col (strip line))
                       <$> found_in polymer_names (context_of lines i))
            (found_in polymer_samples (context_of lines i))) as Hin.
  { destruct (found_in polymer_samples _); [by apply elem_of_nil in Ha|].
    destruct (found_in polymer_names _); [by apply elem_of_nil in Ha|]. done. }
  clear Ha. apply list_elem_of_In, in_flat_map in Hin as (poly & Hp & Hin).
  apply list_elem_of_In, list_elem_of_fmap in Hin as (col & -> & Hc).
  apply list_elem_of_In, found_in_elem in Hp as [? ?].
  apply found_in_elem in Hc as [? ?]. done.
Qed.

Lemma associations_from_elem lines i rest a :
  a ∈ associations_from lines i rest →
  ∃ (j : nat) line,
    rest !! j = Some line ∧ a ∈ line_associations lines (i + Z.of_nat j) line.
Proof.
  revert i. induction rest as [|line rest IH]; intros i; simpl.
  { by intros ?%elem_of_nil. }
  intros [Ha | Ha]%elem_of_app.
  - exists 0%nat, line. rewrite Z.add_0_r. done.
  - apply IH in Ha as (j & line' & Hj & Ha). exists (S j), line'.
    split; [done|]. by replace (i + Z.of_nat (S j)) with (i + 1 + Z.of_nat j) by lia.
Qed.

(** X20. Every association returned names a polymer of the sample list and
    a column of the brand list that both occur, case ignored, in the few
    lines around a line holding an analysis keyword, and carries that line
    stripped as its context. No pair of polymer and column is returned
    twice, so at most 13 * 18 associations are returned. *)
Theorem associations_sound_and_unique (text : list char) :
  (∀ a, a ∈ extract_polymer_column_associations text →
     ∃ (i : nat) line,
       split_on newline text !! i = Some line
       ∧ any_in (lower line) analysis_keywords = true
       ∧ polymer a ∈ polymer_samples
       ∧ mentions (str (polymer a)) (context_of (split_on newline text) (Z.of_nat i)) = true
       ∧ column a ∈ polymer_names
       ∧ mentions (str (column a)) (context_of (split_on newline text) (Z.of_nat i)) = true
       ∧ context a = strip line)
  ∧ NoDup (assoc_sig <$> extract_polymer_column_associations text)
  ∧ (length (extract_polymer_column_associations text) ≤ 13 * 18)%nat.
Proof.
  assert (∀ a, a ∈ extract_polymer_column_associations text →
     ∃ (i : nat) line,
       split_on newline text !! i = Some line
       ∧ any_in (lower line) analysis_keywords = true
       ∧ polymer a ∈ polymer_samples
       ∧ mentions (str (polymer a)) (context_of (split_on newline text) (Z.of_nat i)) = true
       ∧ column a ∈ polymer_names
       ∧ mentions (str (column a)) (context_of (split_on newline text) (Z.of_nat i)) = true
       ∧ context a = strip line) as Hsound.
  { intros a Ha. unfold extract_polymer_column_associations in Ha.
    apply (sublist_subseteq _ _ (unique_by_sublist _ _ _)) in Ha.
    apply associations_from_elem in Ha as (i & line & Hi & Ha).
    rewrite Z.add_0_l in Ha. apply line_associations_elem in Ha.
    exists i, line. tauto. }
  pose proof (unique_by_NoDup assoc_sig ∅
                (associations_from (split_on newline text) 0
                   (split_on newline text))) as Hnd.
  split_and!; [exact Hsound|exact Hnd|].
  assert ((assoc_sig <$> extract_polymer_column_associations text)
          ⊆ list_prod polymer_samples polymer_names) as Hsub.
  { intros [p c] (a & Heq & Ha)%list_elem_of_fmap.
    destruct (Hsound a Ha) as (_ & _ & _ & _ & Hp & _ & Hc & _).
    injection Heq as -> ->.
    apply list_elem_of_In, in_prod; by apply list_elem_of_In. }
  pose proof (submseteq_length _ _ (NoDup_submseteq _ _ Hnd Hsub)) as Hlen.
  rewrite length_fmap in Hlen. exact Hlen.
Qed.

(** ** Column mentions *)

Lemma mention_fold (line : list char) (names : list (list char))
    (d : gmap (list char) (list (list char))) (name : list char) :
  NoDup names →
  foldl (mention_step line) d names !! name =
  if bool_decide (name ∈ names) && mentions name line
  then (λ v, v ++ [line]) <$> d !! name
  else d !! name.
Proof.
  intros Hnd. revert d. induction Hnd as [|n names Hn Hnd IH]; intros d; simpl.
  { done. }
  rewrite IH. unfold mention_step.
  destruct (decide (name = n)) as [-> | Hne].
  - rewrite (bool_decide_eq_false_2 (n ∈ names)) by done.
    rewrite (bool_decide_eq_true_2 (n ∈ n :: names)) by left. simpl.
    destruct (mentions n line); [by rewrite lookup_alter_eq|done].
  - assert (bool_decide (name ∈ n :: names) = bool_decide (name ∈ names)) as ->.
    { apply bool_decide_ext. rewrite elem_of_cons. tauto. }
    destruct (mentions n line); [|done].
    by rewrite lookup_alter_ne.
Qed.

Lemma init_dict_lookup (names : list (list char)) (d : gmap (list char) (list (list char)))
    (name : list char) :
  foldl (λ d n, <[n := []]> d) d names !! name =
  if bool_decide (name ∈ names) then Some [] else d !! name.
Proof.
  revert d. induction names as [|n names IH]; intros d; simpl; [done|].
  rewrite IH. destruct (decide (name ∈ names)) as [Hin | Hin].
  - rewrite !bool_decide_eq_true_2; [done|by right|done].
  - rewrite (bool_decide_eq_false_2 _ Hin).
    destruct (decide (name = n)) as [-> | Hne].
    + rewrite bool_decide_eq_true_2 by left. by rewrite lookup_insert_eq.
    + rewrite bool_decide_eq_false_2
        by (rewrite elem_of_cons; intros [? | ?]; done).
      by rewrite lookup_insert_ne.
Qed.

(** X21. For a list of distinct names, [identify_polymers] maps every name
    of the list to the lines of the text that mention it, case ignored, in
    the order of the text, an empty list when no line does, and has no
    other key. *)
Theorem identify_polymers_lookup (text : list char) (names : list (list char))
    (name : list char) :
  NoDup names →
  identify_polymers text names !! name =
  if bool_decide (name ∈ names)
  then Some (filter (λ line, mentions name line = true) (split_on newline text))
  else None.
Proof.
  intros Hnd. unfold identify_polymers.
  assert (∀ lines (d : gmap (list char) (list (list char))),
            foldl (λ d line, foldl (mention_step line) d names) d lines !! name =
            if bool_decide (name ∈ names)
            then (λ v, v ++ filter (λ line, mentions name line = true) lines)
                   <$> d !! name
            else d !! name) as Hfold.
  { induction lines as [|line lines IH]; intros d; simpl.
    - case_bool_decide; [|done]. destruct (d !! name); simpl; [|done].
      by rewrite app_nil_r.
    - rewrite IH, mention_fold by done. rewrite filter_cons.
      case_bool_decide; [|done]. simpl.
      destruct (mentions name line) eqn:Hm; simpl.
      + destruct (d !! name); simpl; [|done]. by rewrite <- app_assoc.
      + done. }
  rewrite Hfold, init_dict_lookup.
  case_bool_decide; [done|]. apply lookup_empty.
Qed.

End Properties.

(** * The properties on concrete inputs *)

(** The inputs of this part are ASCII texts, on which every database
    that obeys [unicode_laws] computes the same. *)

(** C4, as stated, fails: the text of [tab_sentence] contains a digit and
    a tab, but the heuristic sees the stripped text, which has no tab; the
    sentence is not tagged TABLE and scores 0. *)
Lemma table_heuristic_raw_text_counterexample :
  (∀ U : Unicode, unicode_laws U →
     @table_like U (span_text tab_sentence)
     ∧ "TABLE" ∉ snd (@score_sentence U tab_sentence)
     ∧ fst (@score_sentence U tab_sentence) = 0)
  ∧ ¬ (∀ (U : Unicode) (s : Span), unicode_laws U →
         ("TABLE" ∈ snd (@score_sentence U s) ↔ @table_like U (span_text s))).
Proof.
  assert (∀ U : Unicode, unicode_laws U →
            @table_like U (span_text tab_sentence)
            ∧ "TABLE" ∉ snd (@score_sentence U tab_sentence)
            ∧ fst (@score_sentence U tab_sentence) = 0) as H.
  { intros U HU. split_and!.
    - apply looks_like_table_spec.
      rewrite (looks_like_table_ascii _ HU) by reflexivity. reflexivity.
    - rewrite (score_sentence_ascii _ HU) by reflexivity. compute_done.
    - rewrite (score_sentence_ascii _ HU) by reflexivity. by vm_compute. }
  split; [exact H|].
  intros Hall. destruct (H ascii_db ascii_db_laws) as (Hraw & Hno & _).
  by apply Hno, (Hall ascii_db tab_sentence ascii_db_laws).
Qed.

(** C5, as stated, fails: whatever the iteration order of the keyword
    set, highlighting the marked text of "water" marks the keyword again. *)
Lemma highlight_not_idempotent :
  (¬ ∃ (U : Unicode) (kw_iter : list string),
       unicode_laws U
       ∧ kw_iter ≡ₚ elements ALL_KEYWORDS
       ∧ @highlight U kw_iter (@highlight U kw_iter (str "water"))
         = @highlight U kw_iter (str "water"))
  ∧ (∀ U : Unicode, unicode_laws U →
       @highlight U (elements ALL_KEYWORDS) (str "water") = str "[[water]]"
       ∧ @highlight U (elements ALL_KEYWORDS) (str "[[water]]")
         = str "[[[[water]]]]").
Proof.
  split.
  - intros (U & kw_iter & HU & Hp & Hid).
    pose proof (λ k, sorted_keywords_ok kw_iter k Hp) as Hok.
    apply (proj1 (run_idempotent_iff HU _ Hok (str "water"))) in Hid.
    assert ("water" ∈ sorted_by_len_desc kw_iter) as Hin.
    { rewrite sorted_by_len_desc_perm, Hp. apply elem_of_elements. compute_done. }
    assert (length (str "water")
            < length (@re_sub U (str "water") (str "water")))%nat as Hlen.
    { unfold re_sub. rewrite (re_sub_from_ascii _ _ _ _ HU) by done.
      vm_compute. lia. }
    pose proof (run_longer _ Hok "water" _ Hin Hlen) as Hlt.
    rewrite Hid in Hlt. lia.
  - intros U HU.
    assert (Forall (λ k, ascii_text (str k) = true) (elements ALL_KEYWORDS))
      as Hks.
    { apply Forall_forall. intros k Hk. by apply all_keywords_ascii, elem_of_elements. }
    rewrite !(highlight_ascii _ _ HU Hks) by reflexivity.
    split; by vm_compute.
Qed.

(** ** Examples *)

(** Windows [0,5), [3,8) and [9,13): the first two overlap and merge, the
    third starts behind the end of the merged region. *)
Example merge_three_windows :
  merge [mkHit 9 13 2 {["TABLE"]}; mkHit 0 5 3 {["CRITICAL"]};
         mkHit 3 8 4 {["SOLVENT"]}]
  = [mkHit 0 8 4 {["CRITICAL"; "SOLVENT"]}; mkHit 9 13 2 {["TABLE"]}].
Proof. vm_compute. reflexivity. Qed.

(** Windows that touch, [0,3) and [3,5), are merged. *)
Example merge_adjacent_windows :
  merge [mkHit 0 3 2 ∅; mkHit 3 5 6 ∅] = [mkHit 0 5 6 ∅].
Proof. vm_compute. reflexivity. Qed.

(** Two range matches in one sentence score 4 each; the tag is there once. *)
Example two_ranges_score `{U : Unicode} :
  unicode_laws U →
  score_sentence
    (mkSpan (str "1-2 and 3-4")
       [ mkToken (str "1") true; mkToken (str "-") false;
         mkToken (str "2") true; mkToken (str "and") false;
         mkToken (str "3") true; mkToken (str "-") false;
         mkToken (str "4") true ])
  = (8, {["NUMERIC_RANGE"]}).
Proof.
  intros HU. rewrite (score_sentence_ascii _ HU) by reflexivity.
  vm_compute. reflexivity.
Qed.

(** The keyword "sec" inside "seconds" is left alone. *)
Example highlight_seconds `{U : Unicode} :
  unicode_laws U →
  highlight (elements ALL_KEYWORDS) (str "seconds of SEC, pore size")
  = str "seconds of [[SEC]], [[pore size]]".
Proof.
  intros HU. rewrite (highlight_ascii _ _ HU) by
    (try reflexivity; apply Forall_forall; intros k Hk;
     by apply all_keywords_ascii, elem_of_elements).
  vm_compute. reflexivity.
Qed.

(** ** Instances *)

(** The instances of the theorems are taken at [ascii_db]. *)
#[local] Existing Instance ascii_db.

Lemma highlight_whole_words_witness :
  unicode_laws ascii_db
  ∧ elements ALL_KEYWORDS ≡ₚ elements ALL_KEYWORDS
  ∧ highlight_passes (sorted_by_len_desc (elements ALL_KEYWORDS))
      (str "Water and seconds.")
      (highlight (elements ALL_KEYWORDS) (str "Water and seconds.")).
Proof.
  split; [exact ascii_db_laws|]. split; [reflexivity|].
  apply (highlight_whole_words (elements ALL_KEYWORDS) (str "Water and seconds.")
           ascii_db_laws).
  reflexivity.
Defined.

Lemma merge_order_independent_witness :
  Forall window_ok
    [mkHit 0 5 3 {["CRITICAL"]}; mkHit 3 8 2 {["SOLVENT"]}; mkHit 9 13 1 ∅]
  ∧ merge [mkHit 3 8 2 {["SOLVENT"]}; mkHit 0 5 3 {["CRITICAL"]}; mkHit 9 13 1 ∅]
    = merge [mkHit 0 5 3 {["CRITICAL"]}; mkHit 3 8 2 {["SOLVENT"]}; mkHit 9 13 1 ∅].
Proof.
  assert (Forall window_ok
            [mkHit 0 5 3 {["CRITICAL"]}; mkHit 3 8 2 {["SOLVENT"]}; mkHit 9 13 1 ∅])
    as Hok.
  { repeat (apply Forall_cons; split; [unfold window_ok; simpl; lia|]).
    apply Forall_nil_2. }
  split; [exact Hok|].
  apply (merge_order_independent _ _ Hok). apply Permutation_swap.
Defined.

Lemma analyze_nothing_relevant_witness :
  fst (score_sentence
         (mkSpan (str "Hello there.")
            [mkToken (str "Hello") false; mkToken (str "there") false;
             mkToken (str ".") false])) = 0
  ∧ analyze [] (λ _, [mkSpan (str "Hello there.")
                        [mkToken (str "Hello") false; mkToken (str "there") false;
                         mkToken (str ".") false]])
            (str "Hello there.")
    = Some [].
Proof.
  split; [reflexivity|].
  apply analyze_nothing_relevant. right.
  intros s Hs. apply list_elem_of_singleton in Hs. rewrite Hs. reflexivity.
Defined.

Lemma pore_size_scenario_witness :
  ∃ r,
    merge (collect_hits [pore_sentence]) = [r]
    ∧ ({["STATIONARY"; "CRITICAL"; "NUMERIC_RANGE"; "MEASUREMENT"]} : gset string)
        ⊆ tags r
    ∧ score r = 14
    ∧ classify (tags r) = "CONFIRMED CRITICAL RANGES".
Proof.
  destruct (pore_size_scenario [] (λ _, [pore_sentence]) ascii_db_laws eq_refl)
    as (r & Hm & Ht & Hs & _ & Hc & _).
  exists r. split_and!; assumption.
Defined.

Lemma merged_regions_in_bounds_witness :
  mkHit 0 1 14 {["STATIONARY"; "CRITICAL"; "NUMERIC_RANGE"; "MEASUREMENT"]}
    ∈ merge (collect_hits [pore_sentence])
  ∧ 0 ≤ 0 ∧ 0 < 1 ∧ 1 ≤ Z.of_nat (length [pore_sentence]).
Proof.
  assert (mkHit 0 1 14 {["STATIONARY"; "CRITICAL"; "NUMERIC_RANGE"; "MEASUREMENT"]}
            ∈ merge (collect_hits [pore_sentence])) as Hin.
  { unfold collect_hits, hits_from.
    rewrite (pore_sentence_score ascii_db_laws). left. }
  split; [exact Hin|].
  destruct (merged_regions_in_bounds [] [pore_sentence] _ Hin)
    as (H0 & H1 & H2 & _).
  split_and!; assumption.
Defined.

(** ** Instances of the further properties *)

Lemma sample_hits_ok : Forall window_ok sample_hits.
Proof.
  repeat (apply Forall_cons; split; [unfold window_ok; simpl; lia|]).
  apply Forall_nil_2.
Qed.

Lemma pore_region_elem :
  mkHit 0 1 14 pore_tags ∈ merge (collect_hits [pore_sentence]).
Proof.
  unfold collect_hits, hits_from. rewrite (pore_sentence_score ascii_db_laws).
  left.
Qed.

Lemma matcher_spans_witness :
  ("MEASUREMENT", 8%nat, 10%nat) ∈ matcher pore_sentence
  ∧ "MEASUREMENT" ∈ RULES ∧ (8 < 10 ≤ length (span_tokens pore_sentence))%nat.
Proof.
  assert (("MEASUREMENT", 8%nat, 10%nat) ∈ matcher pore_sentence) as Hm
    by (right; left).
  split; [exact Hm|].
  destruct (matcher_spans pore_sentence _ _ _ Hm) as (Hk & Hb & _).
  split; assumption.
Defined.

Lemma matcher_needs_number_witness :
  Forall (λ tok, LIKE_NUM tok = false) (span_tokens plain_sentence)
  ∧ matcher plain_sentence = [].
Proof.
  assert (Forall (λ tok, LIKE_NUM tok = false) (span_tokens plain_sentence)) as H
    by (repeat constructor).
  split; [exact H|]. exact (matcher_needs_number plain_sentence H).
Defined.

Lemma merge_covers_every_hit_witness :
  mkHit 3 8 2 {["SOLVENT"]} ∈ sample_hits
  ∧ ∃ r, r ∈ merge sample_hits ∧ window_start r ≤ 3 ∧ 8 ≤ window_end r.
Proof.
  assert (mkHit 3 8 2 {["SOLVENT"]} ∈ sample_hits) as Hh by left.
  split; [exact Hh|].
  destruct (merge_covers_every_hit sample_hits _ Hh) as (r & Hr & Hs & He & _).
  exists r. split_and!; assumption.
Defined.

Lemma merge_region_aggregates_witness :
  mkHit 0 8 3 {["CRITICAL"; "SOLVENT"]} ∈ merge sample_hits
  ∧ ∃ h, h ∈ sample_hits ∧ window_end h = 8.
Proof.
  assert (mkHit 0 8 3 {["CRITICAL"; "SOLVENT"]} ∈ merge sample_hits) as Hr
    by (vm_compute; left).
  split; [exact Hr|].
  destruct (merge_region_aggregates sample_hits _ sample_hits_ok Hr)
    as (_ & _ & _ & _ & He).
  exact He.
Defined.

Lemma scoring_sentence_in_one_region_witness :
  fst (score_sentence pore_sentence) ≠ 0
  ∧ ∃ r, r ∈ merge (collect_hits [pore_sentence]) ∧ covers r 0.
Proof.
  assert (fst (score_sentence pore_sentence) ≠ 0) as Hs
    by (rewrite (pore_sentence_score ascii_db_laws); done).
  split; [exact Hs|].
  destruct (scoring_sentence_in_one_region [pore_sentence] 0 pore_sentence
              eq_refl Hs) as [(r & Hr & Hc & _) _].
  exists r. split; assumption.
Defined.

Lemma near_scoring_sentences_share_region_witness :
  ∃ r, r ∈ merge (collect_hits [pore_sentence; plain_sentence; pore_sentence])
       ∧ covers r 0 ∧ covers r 2.
Proof.
  assert (fst (score_sentence pore_sentence) ≠ 0) as Hs
    by (rewrite (pore_sentence_score ascii_db_laws); done).
  apply (near_scoring_sentences_share_region
           [pore_sentence; plain_sentence; pore_sentence] 0 2
           pore_sentence pore_sentence eq_refl eq_refl Hs Hs).
  lia.
Defined.

Lemma merge_idempotent_witness :
  Forall window_ok sample_hits ∧ merge (merge sample_hits) = merge sample_hits.
Proof.
  split; [exact sample_hits_ok|]. exact (merge_idempotent _ sample_hits_ok).
Defined.

Lemma region_tags_and_score_witness :
  mkHit 0 1 14 pore_tags ∈ merge (collect_hits [pore_sentence])
  ∧ 2 ≤ 14 ∧ pore_tags ≠ ∅.
Proof.
  split; [exact pore_region_elem|].
  destruct (region_tags_and_score [pore_sentence] _ pore_region_elem)
    as (H2 & Hne & _).
  split; assumption.
Defined.


Lemma script_reads_up_to_empty_line_witness :
  Forall (λ l, l ≠ []) [str "pore size"; str "was 5 nm"]
  ∧ read_lines ([str "pore size"; str "was 5 nm"] ++ [] :: [str "ignored"])
    = Some [str "pore size"; str "was 5 nm"].
Proof.
  assert (Forall (λ l : list char, l ≠ []) [str "pore size"; str "was 5 nm"]) as H
    by (repeat constructor; discriminate).
  split; [exact H|].
  destruct (script_reads_up_to_empty_line _ [str "ignored"] ascii_db_laws H)
    as (_ & Hr & _).
  exact Hr.
Defined.

Lemma two_brands_NoDup : NoDup [str "Zorbax"; str "Waters"].
Proof. compute_done. Qed.

Lemma identify_polymers_lookup_witness :
  identify_polymers (str "PEG on a zorbax column") [str "Zorbax"; str "Waters"]
    !! str "Zorbax"
  = Some [str "PEG on a zorbax column"].
Proof.
  exact (identify_polymers_lookup (str "PEG on a zorbax column")
           [str "Zorbax"; str "Waters"] (str "Zorbax") two_brands_NoDup).
Defined.
